(** * Outline server manager: DigitalOcean account and server glue

    A shallow embedding of

      - [src/server_manager/web_app/digitalocean_server.ts]
        (key-value tags, the install-state poller), and
      - [src/server_manager/model/digitalocean_account.ts]
        (locations, install script, error-to-event mapping),

    followed by the properties of these functions.

    Conventions.  A JavaScript string is a [string]: a sequence of code
    units below 256 (DigitalOcean tags, tokens and slugs are ASCII).  On
    such text [toLowerCase] turns one code unit into one code unit;
    text with larger code units, which JavaScript may lengthen when it
    lowers it, is outside the model, and what is proved about lengths
    is stated for ASCII text.  A
    function that may throw returns an [option] or a [result]; a function
    that writes fields of [this] takes the object and returns the updated
    one.  [Date.now() - startTimestamp] is an explicit argument
    [elapsed], in milliseconds. *)

From Stdlib Require Import ZArith List Bool Ascii String Lia Permutation.
From Stdlib Require Import DecimalString.
From Stdlib Require DecimalPos DecimalZ.
Import ListNotations.
Open Scope string_scope.

(* ================================================================== *)
(** * Part I.  Definitions                                             *)
(* ================================================================== *)

(** ** JavaScript primitives used by the two files *)

Module Js.

(** What a function typed [string] can hand back at run time. *)
Inductive value : Type :=
| undefined
| null
| str (s : string).

(** [if (v)], [!v], [v ? a : b] on such a value. *)
Definition truthy (v : value) : bool :=
  match v with
  | str s => negb (String.eqb s "")
  | _ => false
  end.

(** [s.slice(0, n)] for [n >= 0]. *)
Fixpoint slice_to (n : nat) (s : string) : string :=
  match n, s with
  | S n', String c rest => String c (slice_to n' rest)
  | _, _ => EmptyString
  end.

(** [s.slice(n)] for [n >= 0]. *)
Fixpoint slice_from (n : nat) (s : string) : string :=
  match n, s with
  | S n', String _ rest => slice_from n' rest
  | _, _ => s
  end.

(** [String.prototype.toLowerCase] on one code unit below 256:
    A-Z and the Latin-1 capitals U+00C0..U+00DE (but not the
    multiplication sign U+00D7) move up by 32. *)
Definition lower_char (c : ascii) : ascii :=
  let n := nat_of_ascii c in
  if (((65 <=? n) && (n <=? 90))
      || ((192 <=? n) && (n <=? 222) && negb (n =? 215)))%nat
  then ascii_of_nat (n + 32)
  else c.

Fixpoint toLowerCase (s : string) : string :=
  match s with
  | EmptyString => EmptyString
  | String c rest => String (lower_char c) (toLowerCase rest)
  end.

(** [s.endsWith(suffix)]. *)
Definition endsWith (s suffix : string) : bool :=
  String.eqb (slice_from (String.length s - String.length suffix) s) suffix
  && (String.length suffix <=? String.length s)%nat.

(** White space as [String.prototype.trim] sees it, below 256:
    TAB, LF, VT, FF, CR, SPACE and NBSP. *)
Definition is_white (c : ascii) : bool :=
  let n := nat_of_ascii c in
  (((9 <=? n) && (n <=? 13)) || (n =? 32) || (n =? 160))%nat.

Fixpoint trimStart (s : string) : string :=
  match s with
  | String c rest => if is_white c then trimStart rest else s
  | EmptyString => EmptyString
  end.

(** Drops the white space that ends [s]: a white character is kept
    only when something is kept after it. *)
Fixpoint trimEnd (s : string) : string :=
  match s with
  | EmptyString => EmptyString
  | String c rest =>
      match trimEnd rest with
      | EmptyString => if is_white c then EmptyString else String c EmptyString
      | kept => String c kept
      end
  end.

Definition trim (s : string) : string := trimEnd (trimStart s).

(** The template literal [`${n}`] for an integral number. *)
Definition number_to_string (n : Z) : string :=
  NilZero.string_of_int (Z.to_int n).

(** The 64 digits of base64. *)
Definition b64_alphabet : string :=
  "ABCDEFGHIJKLMNOPQRSTUVWXYZabcdefghijklmnopqrstuvwxyz0123456789+/".

Definition b64_digit (n : nat) : ascii :=
  match String.get n b64_alphabet with
  | Some c => c
  | None => "="%char
  end.

(** [btoa]: base64 of a string of code units below 256. *)
Fixpoint btoa (s : string) : string :=
  match s with
  | EmptyString => EmptyString
  | String a EmptyString =>
      let x := nat_of_ascii a in
      String (b64_digit (x / 4))
        (String (b64_digit (x mod 4 * 16)) "==")
  | String a (String b EmptyString) =>
      let x := nat_of_ascii a in
      let y := nat_of_ascii b in
      String (b64_digit (x / 4))
        (String (b64_digit (x mod 4 * 16 + y / 16))
           (String (b64_digit (y mod 16 * 4)) "="))
  | String a (String b (String c rest)) =>
      let x := nat_of_ascii a in
      let y := nat_of_ascii b in
      let z := nat_of_ascii c in
      String (b64_digit (x / 4))
        (String (b64_digit (x mod 4 * 16 + y / 16))
           (String (b64_digit (y mod 16 * 4 + z / 64))
              (String (b64_digit (z mod 64)) (btoa rest))))
  end.

End Js.

(** ** [infrastructure/hex_encoding] *)

Module hex_encoding.

Definition hex_digit (n : nat) : ascii :=
  match String.get n "0123456789abcdef" with
  | Some c => c
  | None => "0"%char
  end.

(** The value of a hexadecimal digit, in either case. *)
Definition hex_value (c : ascii) : option nat :=
  let n := nat_of_ascii c in
  if ((48 <=? n) && (n <=? 57))%nat then Some (n - 48)
  else if ((97 <=? n) && (n <=? 102))%nat then Some (n - 87)
  else if ((65 <=? n) && (n <=? 70))%nat then Some (n - 55)
  else None.

(** Modelled from the spec: [asciiToHex] of
    [infrastructure/hex_encoding], which is imported by
    [digitalocean_server.ts] but is not among the sources.  The tag
    carries the "hex-encoding of value": two hexadecimal digits for
    each character. *)
Fixpoint asciiToHex (s : string) : string :=
  match s with
  | EmptyString => EmptyString
  | String c rest =>
      let n := nat_of_ascii c in
      String (hex_digit (n / 16)) (String (hex_digit (n mod 16)) (asciiToHex rest))
  end.

(** Modelled from the spec: [hexToString] of
    [infrastructure/hex_encoding], not among the sources either.  It
    decodes a "hex-encoded tag value" and throws ([None]) when the
    text "is not valid hex": an odd number of digits, or a character
    that is no hexadecimal digit. *)
Fixpoint hexToString (hexString : string) : option string :=
  match hexString with
  | EmptyString => Some EmptyString
  | String _ EmptyString => None
  | String h (String l rest) =>
      match hex_value h, hex_value l, hexToString rest with
      | Some a, Some b, Some decoded =>
          Some (String (ascii_of_nat (16 * a + b)) decoded)
      | _, _, _ => None
      end
  end.

(** Valid hex, stated without the decoder: pairs of hexadecimal
    digits. *)
Fixpoint valid_hex (s : string) : bool :=
  match s with
  | EmptyString => true
  | String _ EmptyString => false
  | String h (String l rest) =>
      match hex_value h, hex_value l with
      | Some _, Some _ => valid_hex rest
      | _, _ => false
      end
  end.

End hex_encoding.

(** ** [web_app/digitalocean_server.ts] *)

Module digitalocean_server.
Import Js hex_encoding.

(** Prefix used in key-value tags, and the tag keys. *)
Definition KEY_VALUE_TAG : string := "kv".
Definition CERTIFICATE_FINGERPRINT_TAG : string := "certsha256".
Definition API_URL_TAG : string := "apiurl".
Definition INSTALL_ERROR_TAG : string := "install-error".
Definition DEPRECATED_API_PORT_TAG : string := "apiport".
Definition DEPRECATED_API_PREFIX_TAG : string := "apiprefix".

Definition makeKeyValueTag (key value : string) : string :=
  String.concat ":" [KEY_VALUE_TAG; key; asciiToHex value].

Definition makeKeyValueTagPrefix (key : string) : string :=
  makeKeyValueTag key "".

(** Possible install states for DigitaloceanServer. *)
Inductive InstallState : Type :=
| UNKNOWN
| SUCCESS
| ERROR
| DELETED.

(** The numbers of the TypeScript enum ([UNKNOWN = 0], then counting
    up). *)
Definition InstallState_value (st : InstallState) : Z :=
  match st with
  | UNKNOWN => 0
  | SUCCESS => 1
  | ERROR => 2
  | DELETED => 3
  end.

Definition InstallState_eqb (a b : InstallState) : bool :=
  Z.eqb (InstallState_value a) (InstallState_value b).

(** The fields of [DropletInfo] (declared in
    [cloud/digitalocean_api]) that this file reads. *)
Record NetworkInfo : Type := {
  type : string;
  ip_address : string
}.

Record DropletInfo : Type := {
  id : Z;
  status : string;
  tags : list string;
  networks_v4 : list NetworkInfo
}.

(** The fields of a [DigitalOceanServer] that the install poller reads
    and writes.  [managementApiUrl] is what [setManagementApiUrl] of
    the parent class stored last, [trustedCertificates] the arguments
    of the calls of the global [trustCertificate], latest first.
    Console output and the ['server-active'] event are left out. *)
Record DigitalOceanServer : Type := {
  installState : InstallState;
  dropletInfo : DropletInfo;
  managementApiUrl : option string;
  trustedCertificates : list string
}.

Definition set_installState (st : InstallState) (this : DigitalOceanServer)
  : DigitalOceanServer :=
  {| installState := st;
     dropletInfo := dropletInfo this;
     managementApiUrl := managementApiUrl this;
     trustedCertificates := trustedCertificates this |}.

Definition set_dropletInfo (d : DropletInfo) (this : DigitalOceanServer)
  : DigitalOceanServer :=
  {| installState := installState this;
     dropletInfo := d;
     managementApiUrl := managementApiUrl this;
     trustedCertificates := trustedCertificates this |}.

(** The object the constructor builds, before it calls
    [waitOnInstall(true)]. *)
Definition new_DigitalOceanServer (d : DropletInfo) : DigitalOceanServer :=
  {| installState := UNKNOWN;
     dropletInfo := d;
     managementApiUrl := None;
     trustedCertificates := [] |}.

Definition startsWithCaseInsensitive (text prefix : string) : bool :=
  String.eqb (toLowerCase (slice_to (String.length prefix) text))
             (toLowerCase prefix).

(** The loop of [getTagValue] over [this.dropletInfo.tags].  Falling
    off the end of the loop returns [undefined]; a decoding error is
    caught and gives [null]. *)
Fixpoint getTagValue_in (tagPrefix : string) (tagList : list string) : value :=
  match tagList with
  | [] => undefined
  | tag :: rest =>
      if negb (startsWithCaseInsensitive tag tagPrefix)
      then getTagValue_in tagPrefix rest
      else
        let encodedData := slice_from (String.length tagPrefix) tag in
        match hexToString encodedData with
        | Some decoded => str decoded
        | None => null
        end
  end.

(** Gets the value for the given key, stored in the DigitalOcean
    tags. *)
Definition getTagValue (key : string) (d : DropletInfo) : value :=
  getTagValue_in (makeKeyValueTagPrefix key) (tags d).

(** Returns the public ipv4 address of this server. *)
Fixpoint ipv4Address_in (networks : list NetworkInfo) : value :=
  match networks with
  | [] => undefined
  | network :: rest =>
      if String.eqb (type network) "public"
      then str (ip_address network)
      else ipv4Address_in rest
  end.

Definition ipv4Address (d : DropletInfo) : value :=
  ipv4Address_in (networks_v4 d).

(** A value inside a template literal or on the right of [+=]. *)
Definition to_text (v : value) : string :=
  match v with
  | str s => s
  | null => "null"
  | undefined => "undefined"
  end.

(** Gets the address for the user management api; [None] when it
    throws. *)
Definition getManagementApiAddress (d : DropletInfo) : option string :=
  let apiAddress := getTagValue API_URL_TAG d in
  let found :=
    if negb (truthy apiAddress) then
      let portNumber := getTagValue DEPRECATED_API_PORT_TAG d in
      if negb (truthy portNumber) then None
      else if negb (truthy (ipv4Address d)) then None
      else
        let address :=
          "https://" ++ to_text (ipv4Address d) ++ ":" ++ to_text portNumber ++ "/" in
        let apiPrefix := getTagValue DEPRECATED_API_PREFIX_TAG d in
        if truthy apiPrefix
        then Some (address ++ (to_text apiPrefix ++ "/"))
        else Some address
    else Some (to_text apiAddress) in
  match found with
  | Some address =>
      if negb (endsWith address "/") then Some (address ++ "/") else Some address
  | None => None
  end.

(** Gets the certificate fingerprint in base64 format; [None] when it
    throws. *)
Definition getCertificateFingerprint (d : DropletInfo) : option string :=
  let fingerprint := getTagValue CERTIFICATE_FINGERPRINT_TAG d in
  if truthy fingerprint then Some (btoa (to_text fingerprint)) else None.

(** Returns true on success, else false.  The two getters are the
    calls of the [try] block that throw; [console.log],
    [trustCertificate] and [setManagementApiUrl] are taken not to. *)
Definition setApiUrlAndCertificate (this : DigitalOceanServer)
  : bool * DigitalOceanServer :=
  match getCertificateFingerprint (dropletInfo this) with
  | None => (false, this)
  | Some certificateFingerprint =>
      match getManagementApiAddress (dropletInfo this) with
      | None => (false, this)
      | Some apiAddress =>
          (true,
           {| installState := installState this;
              dropletInfo := dropletInfo this;
              managementApiUrl := Some apiAddress;
              trustedCertificates :=
                certificateFingerprint :: trustedCertificates this |})
      end
  end.

Definition TIMEOUT_MS : Z := 5 * 60 * 1000.

(** The closure [updateInstallState] of [refreshInstallState];
    [elapsed] is [Date.now() - startTimestamp] at the call. *)
Definition updateInstallState (elapsed : Z) (this : DigitalOceanServer)
  : DigitalOceanServer :=
  if negb (InstallState_eqb (installState this) UNKNOWN) then this
  else if truthy (getTagValue INSTALL_ERROR_TAG (dropletInfo this))
  then set_installState ERROR this
  else if (elapsed >=? TIMEOUT_MS)%Z
  then set_installState ERROR this
  else
    let (found, this') := setApiUrlAndCertificate this in
    if found then set_installState SUCCESS this' else this'.

(** The handler that [refreshDropletInfo] runs on the answer of
    [getDroplet]. *)
Definition refreshDropletInfo_then (newDropletInfo : DropletInfo)
    (this : DigitalOceanServer) : DigitalOceanServer :=
  set_dropletInfo newDropletInfo this.

(** The [then] callback inside the interval, run when the answer
    to a request that was already on its way arrives. *)
Definition refreshed_update (this : DigitalOceanServer)
    (answer : Z * DropletInfo) : DigitalOceanServer :=
  updateInstallState (fst answer) (refreshDropletInfo_then (snd answer) this).

(** One firing of the 3000 ms interval of [refreshInstallState].
    [response] is the outcome of [getDroplet]: [None] when the request
    fails, in which case nothing is done until the next firing.  The
    result says whether the interval is still running. *)
Definition refreshInstallState_tick (elapsed : Z)
    (response : option DropletInfo) (this : DigitalOceanServer)
  : bool * DigitalOceanServer :=
  if negb (InstallState_eqb (installState this) UNKNOWN) then (false, this)
  else
    match response with
    | None => (true, this)
    | Some newDropletInfo =>
        let this' :=
          updateInstallState elapsed (refreshDropletInfo_then newDropletInfo this) in
        (InstallState_eqb (installState this') UNKNOWN, this')
    end.

(** [refreshInstallState] up to the point where it returns: the
    immediate [updateInstallState()], and whether the interval is
    started. *)
Definition refreshInstallState (elapsed : Z) (this : DigitalOceanServer)
  : bool * DigitalOceanServer :=
  let this' := updateInstallState elapsed this in
  (InstallState_eqb (installState this') UNKNOWN, this').

(** Callback to be invoked once server is deleted. *)
Definition onDelete (this : DigitalOceanServer) : DigitalOceanServer :=
  set_installState DELETED this.

(** The synchronous part of [waitOnInstall(resetTimeout)]. *)
Definition waitOnInstall_begin (resetTimeout : bool) (elapsed : Z)
    (this : DigitalOceanServer) : DigitalOceanServer :=
  if resetTimeout
  then snd (refreshInstallState elapsed (set_installState UNKNOWN this))
  else this.

(** Everything that writes [installState] after construction. *)
Inductive operation : Type :=
| op_updateInstallState (elapsed : Z)
| op_refreshInstallState_tick (elapsed : Z) (response : option DropletInfo)
| op_waitOnInstall (resetTimeout : bool) (elapsed : Z)
| op_onDelete.

Definition perform (this : DigitalOceanServer) (op : operation)
  : DigitalOceanServer :=
  match op with
  | op_updateInstallState elapsed => updateInstallState elapsed this
  | op_refreshInstallState_tick elapsed response =>
      snd (refreshInstallState_tick elapsed response this)
  | op_waitOnInstall resetTimeout elapsed =>
      waitOnInstall_begin resetTimeout elapsed this
  | op_onDelete => onDelete this
  end.

Definition perform_all (ops : list operation) (this : DigitalOceanServer)
  : DigitalOceanServer :=
  fold_left perform ops this.

(** The errors [waitOnInstall] rejects with. *)
Inductive ServerError : Type :=
| UnreachableServerError
| ServerInstallFailedError
| DeletedServerError.

Inductive Promise : Type :=
| pending
| fulfilled
| rejected (e : ServerError).

(** The promise of [waitOnInstall] with its 100 ms interval. *)
Record Waiter : Type := {
  intervalRunning : bool;
  promise : Promise
}.

Definition new_Waiter : Waiter :=
  {| intervalRunning := true; promise := pending |}.

(** One firing of the interval of [waitOnInstall].  [observed] is
    [this.installState] at that moment; [isHealthy] is what the
    promise of [this.isHealthy()] resolves to, [None] when it does
    not resolve. *)
Definition waitOnInstall_tick (isHealthy : option bool) (w : Waiter)
    (observed : InstallState) : Waiter :=
  if negb (intervalRunning w) then w
  else
    match observed with
    | UNKNOWN => w
    | SUCCESS =>
        {| intervalRunning := false;
           promise :=
             match isHealthy with
             | Some true => fulfilled
             | Some false => rejected UnreachableServerError
             | None => pending
             end |}
    | ERROR =>
        {| intervalRunning := false;
           promise := rejected ServerInstallFailedError |}
    | DELETED =>
        {| intervalRunning := false;
           promise := rejected DeletedServerError |}
    end.

(** The promise after the interval has fired once for each element
    of [observations]. *)
Definition waitOnInstall (isHealthy : option bool)
    (observations : list InstallState) : Promise :=
  promise (fold_left (waitOnInstall_tick isHealthy) observations new_Waiter).

End digitalocean_server.

(** ** [model/digitalocean_account.ts] *)

Module digitalocean_account.
Import Js.

Definition SHADOWBOX_TAG : string := "shadowbox".
Definition MACHINE_SIZE : string := "s-1vcpu-1gb".

Record DigitalOceanLocation : Type := {
  regionId : string;
  dataCenterIds : list string
}.

(** The fields of [RegionInfo] (declared in [cloud/digitalocean_api])
    that [listLocations] reads. *)
Record RegionInfo : Type := {
  slug : string;
  available : bool;
  sizes : list string
}.

(** [slug.substr(0, 3).toLowerCase()] *)
Definition GetCityId (slug : string) : string :=
  toLowerCase (slice_to 3 slug).

(** [region.sizes.indexOf(MACHINE_SIZE) !== -1] *)
Definition offers_machine_size (region : RegionInfo) : bool :=
  existsb (String.eqb MACHINE_SIZE) (sizes region).

(** The test a region has to pass: it is available and offers the
    machine size. *)
Definition supports_outline (region : RegionInfo) : bool :=
  available region && offers_machine_size region.

(** [region] passes the test and lies in [city]. *)
Definition in_city (city : string) (region : RegionInfo) : bool :=
  supports_outline region && String.eqb (GetCityId (slug region)) city.

(** [location.dataCenterIds.push(slug)] on the entry that
    [locations.find] returns: the first one with this [regionId].
    The entry is changed where it stands in [locations]. *)
Fixpoint push_dataCenterId (city slug : string)
    (locations : list DigitalOceanLocation) : list DigitalOceanLocation :=
  match locations with
  | [] => []
  | entry :: rest =>
      if String.eqb (regionId entry) city
      then {| regionId := regionId entry;
              dataCenterIds := dataCenterIds entry ++ [slug] |} :: rest
      else entry :: push_dataCenterId city slug rest
  end.

(** The body of [regionInfos.forEach]. *)
Definition listLocations_each (locations : list DigitalOceanLocation)
    (region : RegionInfo) : list DigitalOceanLocation :=
  let city := GetCityId (slug region) in
  if supports_outline region then
    match find (fun entry => String.eqb (regionId entry) city) locations with
    | Some _ => push_dataCenterId city (slug region) locations
    | None =>
        locations ++ [ {| regionId := GetCityId (slug region);
                          dataCenterIds := [slug region] |} ]
    end
  else locations.

(** What [listLocations] returns when [getRegionInfo] answers
    [regionInfos]. *)
Definition listLocations (regionInfos : list RegionInfo)
  : list DigitalOceanLocation :=
  fold_left listLocations_each regionInfos [].

(** The invariant of the loop of [listLocations]: what holds of
    [locations] once the regions [seen] have gone through the body.
    There is one entry for each city; an entry lists the data centers
    of its city that passed the test, in the order of [seen]; every
    region that passed the test has its city among the entries; and
    no entry is empty. *)
Record grouped (seen : list RegionInfo) (locations : list DigitalOceanLocation)
  : Prop := {
  grouped_nodup : NoDup (map regionId locations);
  grouped_ids :
    forall location, In location locations ->
      dataCenterIds location
      = map slug (filter (in_city (regionId location)) seen);
  grouped_all :
    forall region, In region seen -> supports_outline region = true ->
      In (GetCityId (slug region)) (map regionId locations);
  grouped_some :
    forall location, In location locations ->
      exists region, In region seen /\ in_city (regionId location) region = true
}.

(** The errors [processError] tells apart with [instanceof]:
    [HttpError] and [NetworkError] of [cloud/digitalocean_api], and
    any other [Error]. *)
Inductive Error : Type :=
| HttpError (statusCode : Z) (message : string)
| NetworkError
| OtherError (message : string).

(** What [processError] does to the outside. *)
Inductive Effect : Type :=
| emit (event : string)
| console_error (text : string).

Definition EVENT_ACCOUNT_CONNECTIVITY_ISSUE : string :=
  "account-connectivity-issue".

Definition LF : string := String (ascii_of_nat 10) EmptyString.

Definition processError (error : Error) : list Effect :=
  match error with
  | HttpError statusCode message =>
      if (statusCode =? 401)%Z
      then [emit EVENT_ACCOUNT_CONNECTIVITY_ISSUE]
      else [console_error
              ("DigitalOcean API request failed with status " ++ LF
               ++ "              " ++ number_to_string statusCode
               ++ " and message: " ++ message)]
  | NetworkError => [emit EVENT_ACCOUNT_CONNECTIVITY_ISSUE]
  | OtherError message =>
      [console_error ("DigitalOceanSession error: " ++ message)]
  end.

(** [listLocations] with its [try]/[catch]: [response] is the outcome
    of [getRegionInfo]; on an error the function returns [undefined]
    ([None]) after [processError]. *)
Definition listLocations_async (response : list RegionInfo + Error)
  : option (list DigitalOceanLocation) * list Effect :=
  match response with
  | inl regionInfos => (Some (listLocations regionInfos), [])
  | inr error => (None, processError error)
  end.

(** A function that returns a string or throws an [Error] with a
    message. *)
Inductive outcome : Type :=
| returns (s : string)
| throws (message : string).

(** The class [[A-Za-z0-9_\/-]]. *)
Definition token_char (c : ascii) : bool :=
  let n := nat_of_ascii c in
  (((65 <=? n) && (n <=? 90)) || ((97 <=? n) && (n <=? 122))
   || ((48 <=? n) && (n <=? 57))
   || (n =? 95) || (n =? 47) || (n =? 45))%nat.

Fixpoint all_token_chars (s : string) : bool :=
  match s with
  | EmptyString => true
  | String c rest => token_char c && all_token_chars rest
  end.

(** [/^[A-Za-z0-9_\/-]+$/.test(s)]: without the [m] flag the anchors
    are the two ends of [s]. *)
Definition pattern_test (s : string) : bool :=
  negb (String.eqb s "") && all_token_chars s.

Definition sanitizeDigitalOceanToken (input : string) : outcome :=
  let sanitizedInput := trim input in
  if negb (pattern_test sanitizedInput)
  then throws "Invalid DigitalOcean Token"
  else returns sanitizedInput.

(** [arg ? line : ''] for an optional string argument: [None] is
    [undefined]. *)
Definition string_is_truthy (arg : option string) : bool :=
  match arg with
  | Some s => negb (String.eqb s "")
  | None => false
  end.

(** The same for an optional number. *)
Definition number_is_truthy (arg : option Z) : bool :=
  match arg with
  | Some n => negb (n =? 0)%Z
  | None => false
  end.

Definition text_of (arg : option string) : string :=
  match arg with
  | Some s => s
  | None => "undefined"
  end.

Definition number_text_of (arg : option Z) : string :=
  match arg with
  | Some n => number_to_string n
  | None => "undefined"
  end.

Definition quote : string := String (ascii_of_nat 34) EmptyString.

(** The four optional lines of the install script. *)
Definition image_line (image : option string) : string :=
  if string_is_truthy image
  then "export SB_IMAGE=" ++ text_of image ++ LF else "".

Definition watchtower_line (watchtowerRefreshSeconds : option Z) : string :=
  if number_is_truthy watchtowerRefreshSeconds
  then "export WATCHTOWER_REFRESH_SECONDS="
       ++ number_text_of watchtowerRefreshSeconds ++ LF
  else "".

Definition sentry_line (sentryApiUrl : option string) : string :=
  if string_is_truthy sentryApiUrl
  then "export SENTRY_API_URL=" ++ quote ++ text_of sentryApiUrl ++ quote ++ LF
  else "".

Definition metrics_line (metricsUrl : option string) : string :=
  if string_is_truthy metricsUrl
  then "export SB_METRICS_URL=" ++ text_of metricsUrl ++ LF else "".

Section InstallScript.

(** [do_install_script.SCRIPT], the body of the install script; the
    module [install_scripts/do_install_script] is generated at build
    time. *)
Variable SCRIPT : string.

Definition getInstallScript (accessToken name : string)
    (image : option string) (watchtowerRefreshSeconds : option Z)
    (metricsUrl sentryApiUrl : option string) : outcome :=
  match sanitizeDigitalOceanToken accessToken with
  | throws message => throws message
  | returns sanitizedAccessToken =>
      returns
        ("#!/bin/bash -eu" ++ LF
         ++ ("export DO_ACCESS_TOKEN=" ++ sanitizedAccessToken ++ LF)
         ++ image_line image
         ++ watchtower_line watchtowerRefreshSeconds
         ++ sentry_line sentryApiUrl
         ++ metrics_line metricsUrl
         ++ ("export SB_DEFAULT_SERVER_NAME=" ++ quote ++ name ++ quote ++ LF)
         ++ SCRIPT)
  end.

End InstallScript.

End digitalocean_account.

(** ** Sample data *)

Module samples.
Import digitalocean_server.

Definition droplet_with_tags (tagList : list string) : DropletInfo :=
  {| id := 1; status := "active"; tags := tagList; networks_v4 := [] |}.

Definition server_with (st : InstallState) (tagList : list string)
  : DigitalOceanServer :=
  set_installState st (new_DigitalOceanServer (droplet_with_tags tagList)).

(** The tags of a droplet whose install script has finished. *)
Definition installed_tags : list string :=
  ["shadowbox";
   makeKeyValueTag "apiurl" "https://203.0.113.7:31337/TopSecret";
   makeKeyValueTag "certsha256" "0123456789ABCDEF"].

(** The same droplet after the install script has reported a
    failure. *)
Definition failed_tags : list string :=
  makeKeyValueTag "install-error" "true" :: installed_tags.

(** An install-error tag with nothing in it, in front of the tags of
    a finished installation. *)
Definition empty_error_tags : list string :=
  makeKeyValueTag "install-error" "" :: installed_tags.


Definition region (slug_ : string) (available_ : bool) (sizes_ : list string)
  : digitalocean_account.RegionInfo :=
  {| digitalocean_account.slug := slug_;
     digitalocean_account.available := available_;
     digitalocean_account.sizes := sizes_ |}.

(** Two data centers in New York, one in Amsterdam that is closed to
    new droplets, one in Singapore without the machine size. *)
Definition some_regions : list digitalocean_account.RegionInfo :=
  [region "nyc1" true ["s-1vcpu-1gb"; "s-2vcpu-2gb"];
   region "ams2" false ["s-1vcpu-1gb"];
   region "NYC3" true ["s-1vcpu-1gb"];
   region "sgp1" true ["s-2vcpu-2gb"]].

End samples.

(** ** [web_app/digitalocean_server.ts]: the life of a server object *)

Module digitalocean_server_lifecycle.
Import Js digitalocean_server.

(** [new DigitalOceanServer(digitalOcean, dropletInfo)] up to the end
    of the constructor: the fields are initialised and
    [waitOnInstall(true)] has run its synchronous part. *)
Definition DigitalOceanServer_new (elapsed : Z) (d : DropletInfo)
  : DigitalOceanServer :=
  waitOnInstall_begin true elapsed (new_DigitalOceanServer d).

(** The interval of [refreshInstallState] over its firings, each with
    the time elapsed and the outcome of its [getDroplet] request, the
    answer arriving before the next firing.  It runs until a firing
    clears it; the result says whether it is still running. *)
Fixpoint refreshInstallState_interval
    (firings : list (Z * option DropletInfo)) (this : DigitalOceanServer)
  : bool * DigitalOceanServer :=
  match firings with
  | [] => (true, this)
  | (elapsed, response) :: rest =>
      match refreshInstallState_tick elapsed response this with
      | (true, this') => refreshInstallState_interval rest this'
      | (false, this') => (false, this')
      end
  end.

(** [DigitalOceanHost.delete()]: [deleteDroplet] and then, when it
    succeeded, the callback, which [getHost] binds to [onDelete]. *)
Definition DigitalOceanHost_delete (deleted : bool) (this : DigitalOceanServer)
  : DigitalOceanServer :=
  if deleted then onDelete this else this.

(** [DigitalOceanHost.getId()] *)
Definition DigitalOceanHost_getId (d : DropletInfo) : string :=
  number_to_string (id d).

(** [localStorage]: the items, the latest first. *)
Definition Storage : Type := list (string * string).

Fixpoint getItem (key : string) (storage : Storage) : option string :=
  match storage with
  | [] => None
  | (k, v) :: rest => if String.eqb k key then Some v else getItem key rest
  end.

Definition setItem (key value : string) (storage : Storage) : Storage :=
  (key, value) :: filter (fun item => negb (String.eqb (fst item) key)) storage.

Definition getInstallCompletedStorageKey (this : DigitalOceanServer) : string :=
  "droplet-" ++ number_to_string (id (dropletInfo this)) ++ "-install-completed".

Definition setInstallCompleted (this : DigitalOceanServer) (storage : Storage)
  : Storage :=
  setItem (getInstallCompletedStorageKey this) "true" storage.

Definition isInstallCompleted (this : DigitalOceanServer) (storage : Storage)
  : bool :=
  match getItem (getInstallCompletedStorageKey this) storage with
  | Some value => String.eqb value "true"
  | None => false
  end.

(** What the constructor hangs on the promise of [waitOnInstall(true)]:
    [setInstallCompleted] when it is fulfilled, a console message when
    it is rejected. *)
Definition constructor_settled (settled : Promise) (this : DigitalOceanServer)
    (storage : Storage) : Storage :=
  match settled with
  | fulfilled => setInstallCompleted this storage
  | _ => storage
  end.

End digitalocean_server_lifecycle.

(** ** [model/digitalocean_account.ts]: servers of the account *)

Module digitalocean_account_servers.
Import Js digitalocean_server digitalocean_server_lifecycle digitalocean_account.

(** The fields of [ShadowboxSettings] (declared in
    [web_app/shadowbox_server]) that [createServer] reads; [None] is
    [undefined]. *)
Record ShadowboxSettings : Type := {
  containerImageId : option string;
  metricsUrl : option string;
  sentryApiUrl : option string;
  debug : bool
}.

(** The [dropletSpec] object of [createServer]. *)
Record DropletSpecification : Type := {
  installCommand : string;
  size : string;
  image : string;
  spec_tags : list string
}.

(** The arguments of [apiClient.createDroplet]; the region is
    [location.dataCenterIds[0]], [undefined] ([None]) for an empty
    list. *)
Record CreateDropletRequest : Type := {
  request_name : string;
  request_region : option string;
  request_publicKey : string;
  request_spec : DropletSpecification
}.

(** How the promise of an [async] method ends. *)
Inductive settlement (A : Type) : Type :=
| resolves (a : A)
| rejects (message : string).
Arguments resolves {A} a.
Arguments rejects {A} message.

(** What a method of the account leaves behind: its promise, the field
    [this.servers], what [processError] did, and the requests that
    went to [createDroplet]. *)
Record after (A : Type) : Type := {
  promised : settlement A;
  servers : list DigitalOceanServer;
  effects : list Effect;
  requests : list CreateDropletRequest
}.
Arguments promised {A} a.
Arguments servers {A} a.
Arguments effects {A} a.
Arguments requests {A} a.

Section CreateServer.

(** [do_install_script.SCRIPT] *)
Variable SCRIPT : string.

(** [shadowboxSettings] and [apiClient.accessToken] of the account. *)
Variable settings : ShadowboxSettings.
Variable accessToken : string.

(** The first statements of [createServer]: the install command.  The
    images are refreshed every 30 seconds when a container image is
    configured. *)
Definition createServer_installCommand (name : string) : outcome :=
  let watchtowerRefreshSeconds :=
    if string_is_truthy (containerImageId settings) then Some 30%Z else None in
  getInstallScript SCRIPT accessToken name (containerImageId settings)
    watchtowerRefreshSeconds (metricsUrl settings) (sentryApiUrl settings).

(** [createServer(name, location)].  [publicKey] is the public half of
    the generated key pair, [createDroplet] the answer of the API to a
    request, [elapsed] the clock of the new server's constructor.  A
    throw of [getInstallScript] rejects the promise before anything
    else is done; [generateKeyPair] is taken to succeed. *)
Definition createServer (servers0 : list DigitalOceanServer)
    (name : string) (location : DigitalOceanLocation) (publicKey : string)
    (createDroplet : CreateDropletRequest -> DropletInfo + Error)
    (elapsed : Z) : after (option DigitalOceanServer) :=
  match createServer_installCommand name with
  | throws message =>
      {| promised := rejects message;
         servers := servers0; effects := []; requests := [] |}
  | returns command =>
      let dropletSpec :=
        {| installCommand := command;
           size := MACHINE_SIZE;
           image := "docker-18-04";
           spec_tags := [SHADOWBOX_TAG] |} in
      let request :=
        {| request_name := name;
           request_region := hd_error (dataCenterIds location);
           request_publicKey := publicKey;
           request_spec := dropletSpec |} in
      match createDroplet request with
      | inl droplet =>
          let server := DigitalOceanServer_new elapsed droplet in
          {| promised := resolves (Some server);
             servers := servers0 ++ [server];
             effects := []; requests := [request] |}
      | inr error =>
          {| promised := resolves None;
             servers := servers0;
             effects := processError error; requests := [request] |}
      end
  end.

End CreateServer.

(** [listServers(fetchFromHost)]; [response] is the answer of
    [getDropletsByTag(SHADOWBOX_TAG)], asked for only when
    [fetchFromHost] is true.  After an error the method falls off its
    end and the promise resolves to [undefined] ([None]). *)
Definition listServers (servers0 : list DigitalOceanServer)
    (fetchFromHost : bool) (response : list DropletInfo + Error) (elapsed : Z)
  : after (option (list DigitalOceanServer)) :=
  if negb fetchFromHost
  then {| promised := resolves (Some servers0);
          servers := servers0; effects := []; requests := [] |}
  else
    match response with
    | inl droplets =>
        let fresh := map (DigitalOceanServer_new elapsed) droplets in
        {| promised := resolves (Some fresh);
           servers := fresh; effects := []; requests := [] |}
    | inr error =>
        {| promised := resolves None;
           servers := servers0; effects := processError error; requests := [] |}
    end.

End digitalocean_account_servers.

(** ** More sample data *)

Module more_samples.
Import digitalocean_server.

(** A droplet set up by an old install script: no [apiurl] tag, but a
    port, a prefix and a public address. *)
Definition legacy_droplet : DropletInfo :=
  {| id := 7;
     status := "active";
     tags := [makeKeyValueTag "certsha256" "0123456789ABCDEF";
              makeKeyValueTag "apiport" "8081";
              makeKeyValueTag "apiprefix" "TopSecret"];
     networks_v4 := [ {| type := "private"; ip_address := "10.0.0.2" |};
                      {| type := "public"; ip_address := "203.0.113.9" |} ] |}.

End more_samples.

(** ** [getTagValue] with its exceptions written out *)

Module digitalocean_server_exceptions.
Import Js hex_encoding digitalocean_server.

(** How a call ends: with a value, or with an exception on its way
    up. *)
Inductive completion (A : Type) : Type :=
| returned (a : A)
| thrown.
Arguments returned {A} a.
Arguments thrown {A}.

(** A call of [hexToString], which throws on text that is not valid
    hex. *)
Definition call_hexToString (hexString : string) : completion string :=
  match hexToString hexString with
  | Some decoded => returned decoded
  | None => thrown
  end.

(** [try { body } catch (e) { handler }] *)
Definition try_catch {A : Type} (body handler : completion A) : completion A :=
  match body with
  | returned a => returned a
  | thrown => handler
  end.

(** The statements of [getTagValue] one by one: the loop, the
    [continue], the [return] inside [try], the [return null] of the
    handler, and the end of the function, reached when the loop runs
    out. *)
Fixpoint getTagValue_statements (tagPrefix : string) (tagList : list string)
  : completion value :=
  match tagList with
  | [] => returned undefined
  | tag :: rest =>
      if negb (startsWithCaseInsensitive tag tagPrefix)
      then getTagValue_statements tagPrefix rest
      else
        let encodedData := slice_from (String.length tagPrefix) tag in
        try_catch
          match call_hexToString encodedData with
          | returned decoded => returned (str decoded)
          | thrown => thrown
          end
          (returned null)
  end.

End digitalocean_server_exceptions.

(** ** ASCII text *)

(** Every character of [s] is below 128, as in the slugs, tags and
    tokens of DigitalOcean. *)
Fixpoint is_ascii (s : string) : bool :=
  match s with
  | EmptyString => true
  | String c rest => (nat_of_ascii c <? 128)%nat && is_ascii rest
  end.

(* ================================================================== *)
(** * Part II.  Properties                                             *)
(* ================================================================== *)

Import Js hex_encoding.

(** ** Strings *)

Lemma append_empty_r (s : string) : s ++ "" = s.
Proof.
  induction s as [|c s IH]; simpl; [reflexivity | now rewrite IH].
Qed.

Lemma append_assoc (a b c : string) : (a ++ b) ++ c = a ++ (b ++ c).
Proof.
  induction a as [|x a IH]; simpl; [reflexivity | now rewrite IH].
Qed.

Lemma slice_to_append (p x : string) : slice_to (String.length p) (p ++ x) = p.
Proof.
  induction p as [|c p IH]; simpl.
  - now destruct x.
  - now rewrite IH.
Qed.

Lemma slice_from_append (p x : string) :
  slice_from (String.length p) (p ++ x) = x.
Proof.
  induction p as [|c p IH]; simpl; [now destruct x | exact IH].
Qed.

(** Runs through the 256 code units. *)
Ltac each_ascii c :=
  destruct c as [[|] [|] [|] [|] [|] [|] [|] [|]].

(** ** Hexadecimal encoding *)

Lemma hex_pair_roundtrip (c : ascii) :
  hex_value (hex_digit (nat_of_ascii c / 16)) = Some (nat_of_ascii c / 16)
  /\ hex_value (hex_digit (nat_of_ascii c mod 16)) = Some (nat_of_ascii c mod 16)
  /\ ascii_of_nat (16 * (nat_of_ascii c / 16) + nat_of_ascii c mod 16) = c.
Proof.
  each_ascii c; vm_compute; repeat split.
Qed.

Lemma hexToString_asciiToHex (s : string) : hexToString (asciiToHex s) = Some s.
Proof.
  induction s as [|c s IH]; [reflexivity|].
  cbn [asciiToHex hexToString].
  destruct (hex_pair_roundtrip c) as (Hh & Hl & Hc).
  now rewrite Hh, Hl, IH, Hc.
Qed.

Lemma hexToString_valid_hex (s : string) :
  valid_hex s = true <-> exists decoded, hexToString s = Some decoded.
Proof.
  revert s.
  fix IH 1.
  intros [|h [|l rest]].
  - split; [now exists "" | reflexivity].
  - split; [discriminate | intros [v Hv]; discriminate].
  - cbn [valid_hex hexToString].
    destruct (hex_value h) as [a|]; [|split; [discriminate | intros [v Hv]; discriminate]].
    destruct (hex_value l) as [b|]; [|split; [discriminate | intros [v Hv]; discriminate]].
    rewrite (IH rest).
    destruct (hexToString rest) as [v|].
    + split; intros _; eexists; reflexivity.
    + split; intros [v Hv]; discriminate.
Qed.

Lemma hexToString_invalid_hex (s : string) :
  valid_hex s = false <-> hexToString s = None.
Proof.
  pose proof (hexToString_valid_hex s) as H.
  destruct (valid_hex s), (hexToString s) as [v|]; split; intros E;
    try reflexivity; try discriminate.
  - destruct (proj1 H eq_refl) as [w Hw]; discriminate.
  - assert (false = true) by (apply H; now exists v). discriminate.
Qed.

Lemma hex_value_digit (c : ascii) (a : nat) :
  hex_value c = Some a -> a < 16 /\ hex_digit a = lower_char c.
Proof.
  each_ascii c; vm_compute; intros E; try discriminate E;
    injection E as <-; split; try reflexivity; repeat constructor.
Qed.

Lemma hex_digits_of_byte (a b : nat) :
  a < 16 -> b < 16 ->
  nat_of_ascii (ascii_of_nat (16 * a + b)) / 16 = a
  /\ nat_of_ascii (ascii_of_nat (16 * a + b)) mod 16 = b.
Proof.
  intros Ha Hb.
  rewrite nat_ascii_embedding by lia.
  split.
  - rewrite Nat.mul_comm, Nat.div_add_l by lia.
    rewrite Nat.div_small by lia. lia.
  - rewrite Nat.add_comm, Nat.mul_comm, Nat.Div0.mod_add.
    now apply Nat.mod_small.
Qed.

(** What [hexToString] returns is the text whose encoding is the
    payload, up to the case of the digits. *)
Lemma asciiToHex_hexToString (s decoded : string) :
  hexToString s = Some decoded -> asciiToHex decoded = toLowerCase s.
Proof.
  revert s decoded.
  fix IH 1.
  intros [|h [|l rest]] decoded.
  - cbn. now intros [= <-].
  - discriminate.
  - cbn [hexToString].
    destruct (hex_value h) as [a|] eqn:Eh; [|discriminate].
    destruct (hex_value l) as [b|] eqn:El; [|discriminate].
    destruct (hexToString rest) as [v|] eqn:Er; [|discriminate].
    remember (ascii_of_nat (16 * a + b)) as byte eqn:Ebyte.
    intros [= <-].
    apply hex_value_digit in Eh as (Ha & Eh).
    apply hex_value_digit in El as (Hb & El).
    destruct (hex_digits_of_byte a b Ha Hb) as (Hq & Hr).
    rewrite <- Ebyte in Hq, Hr.
    cbn [asciiToHex toLowerCase].
    now rewrite Hq, Hr, Eh, El, (IH rest v Er).
Qed.

(** ** Key-value tags *)

Import digitalocean_server samples.

Lemma makeKeyValueTagPrefix_eq (key : string) :
  makeKeyValueTagPrefix key = "kv:" ++ key ++ ":".
Proof. reflexivity. Qed.

Lemma makeKeyValueTag_split (key value : string) :
  makeKeyValueTag key value = makeKeyValueTagPrefix key ++ asciiToHex value.
Proof.
  unfold makeKeyValueTagPrefix, makeKeyValueTag, KEY_VALUE_TAG.
  cbn [String.concat asciiToHex].
  now rewrite !append_assoc.
Qed.

Lemma startsWithCaseInsensitive_append (p x : string) :
  startsWithCaseInsensitive (p ++ x) p = true.
Proof.
  unfold startsWithCaseInsensitive.
  rewrite slice_to_append.
  apply String.eqb_refl.
Qed.

Lemma getTagValue_in_skip (tagPrefix : string) (before rest : list string) :
  Forall (fun tag => startsWithCaseInsensitive tag tagPrefix = false) before ->
  getTagValue_in tagPrefix (before ++ rest)%list = getTagValue_in tagPrefix rest.
Proof.
  induction 1 as [|tag before Htag _ IH]; [reflexivity|].
  cbn [app getTagValue_in].
  now rewrite Htag.
Qed.

Lemma getTagValue_in_cases (tagPrefix : string) (tagList : list string) :
  (Forall (fun tag => startsWithCaseInsensitive tag tagPrefix = false) tagList
   /\ getTagValue_in tagPrefix tagList = undefined)
  \/
  (exists before tag after,
      tagList = (before ++ tag :: after)%list
      /\ Forall (fun t => startsWithCaseInsensitive t tagPrefix = false) before
      /\ startsWithCaseInsensitive tag tagPrefix = true
      /\ getTagValue_in tagPrefix tagList =
         match hexToString (slice_from (String.length tagPrefix) tag) with
         | Some decoded => str decoded
         | None => null
         end).
Proof.
  induction tagList as [|tag rest IH].
  - left. split; [constructor | reflexivity].
  - destruct (startsWithCaseInsensitive tag tagPrefix) eqn:Htag.
    + right. exists [], tag, rest.
      cbn [app getTagValue_in]. rewrite Htag.
      repeat split; constructor.
    + destruct IH as [(Hall & Hres) | (before & t & after & -> & Hall & Ht & Hres)].
      * left. cbn [getTagValue_in]. rewrite Htag. split; [now constructor | exact Hres].
      * right. exists (tag :: before), t, after.
        cbn [app getTagValue_in]. rewrite Htag.
        repeat split; [now constructor | exact Ht | exact Hres].
Qed.

Lemma toLowerCase_length (s : string) :
  String.length (toLowerCase s) = String.length s.
Proof.
  induction s as [|c s IH]; cbn; [reflexivity | now rewrite IH].
Qed.

Lemma slice_to_slice_from (n : nat) (s : string) :
  slice_to n s ++ slice_from n s = s.
Proof.
  revert s. induction n as [|n IH]; intros [|c s]; cbn; try reflexivity.
  now rewrite IH.
Qed.

(** The test of the code says what it is meant to say: [text] begins
    with some [stored] text that is [prefix] when case is ignored. *)
Lemma startsWithCaseInsensitive_spec (text prefix : string) :
  startsWithCaseInsensitive text prefix = true
  <-> exists stored payload,
        text = stored ++ payload /\ toLowerCase stored = toLowerCase prefix.
Proof.
  unfold startsWithCaseInsensitive. split.
  - intros E. apply String.eqb_eq in E.
    exists (slice_to (String.length prefix) text),
           (slice_from (String.length prefix) text).
    split; [now rewrite slice_to_slice_from | exact E].
  - intros (stored & payload & -> & E).
    assert (Hlen : String.length prefix = String.length stored).
    { now rewrite <- (toLowerCase_length stored), E, toLowerCase_length. }
    rewrite Hlen, slice_to_append, E. apply String.eqb_refl.
Qed.

Lemma startsWithCaseInsensitive_payload (stored payload prefix : string) :
  toLowerCase stored = toLowerCase prefix ->
  slice_from (String.length prefix) (stored ++ payload) = payload.
Proof.
  intros E.
  assert (Hlen : String.length prefix = String.length stored).
  { now rewrite <- (toLowerCase_length stored), E, toLowerCase_length. }
  rewrite Hlen. apply slice_from_append.
Qed.

Import digitalocean_server_exceptions.

Lemma getTagValue_statements_return (tagPrefix : string) (tagList : list string) :
  getTagValue_statements tagPrefix tagList
  = returned (getTagValue_in tagPrefix tagList).
Proof.
  induction tagList as [|tag rest IH]; [reflexivity|].
  cbn [getTagValue_statements getTagValue_in].
  destruct (negb (startsWithCaseInsensitive tag tagPrefix)); [exact IH|].
  unfold call_hexToString.
  now destruct (hexToString (slice_from (String.length tagPrefix) tag)).
Qed.

(** C10.  [getTagValue] always returns, whatever the key and the tags:
    run statement by statement, with the exception of the decoder
    written out, it ends in a [return] and never in a throw.  Say that
    a tag carries the key when it is some text that equals [kv:<key>:]
    once both are put in lower case, followed by a payload.  When no
    tag carries the key the result is [undefined].  Otherwise the first
    tag that carries the key decides: if its payload is valid hex the
    result is the decoded string, the one whose hex encoding is the
    payload up to the case of the digits; if the payload is not valid
    hex the result is [null]. *)
Theorem getTagValue_total (key : string) (d : DropletInfo) :
  let tagPrefix := "kv:" ++ key ++ ":" in
  let carries_key (tag : string) :=
    exists stored payload,
      tag = stored ++ payload /\ toLowerCase stored = toLowerCase tagPrefix in
  getTagValue_statements tagPrefix (tags d) = returned (getTagValue key d)
  /\ ((Forall (fun tag => ~ carries_key tag) (tags d)
       /\ getTagValue key d = undefined)
      \/
      (exists before stored payload after,
          tags d = (before ++ (stored ++ payload)%string :: after)%list
          /\ Forall (fun tag => ~ carries_key tag) before
          /\ toLowerCase stored = toLowerCase tagPrefix
          /\ ((valid_hex payload = true
               /\ exists decoded,
                    getTagValue key d = str decoded
                    /\ hexToString payload = Some decoded
                    /\ asciiToHex decoded = toLowerCase payload)
              \/ (valid_hex payload = false /\ getTagValue key d = null)))).
Proof.
  intros tagPrefix carries_key.
  assert (Hno : forall tagList,
             Forall (fun tag => startsWithCaseInsensitive tag tagPrefix = false)
                    tagList ->
             Forall (fun tag => ~ carries_key tag) tagList).
  { intros tagList. apply Forall_impl.
    intros tag Hfalse Hcarries.
    pose proof (proj2 (startsWithCaseInsensitive_spec tag tagPrefix) Hcarries)
      as Htrue.
    rewrite Htrue in Hfalse. discriminate Hfalse. }
  unfold getTagValue. rewrite makeKeyValueTagPrefix_eq. fold tagPrefix.
  split; [apply getTagValue_statements_return|].
  destruct (getTagValue_in_cases tagPrefix (tags d))
    as [(Hall & Hres) | (before & tag & after & Htags & Hall & Htag & Hres)].
  - left. split; [now apply Hno | exact Hres].
  - right.
    destruct (proj1 (startsWithCaseInsensitive_spec tag tagPrefix) Htag)
      as (stored & payload & -> & Hstored).
    rewrite (startsWithCaseInsensitive_payload _ _ _ Hstored) in Hres.
    exists before, stored, payload, after.
    split; [exact Htags | split; [now apply Hno | split; [exact Hstored|]]].
    destruct (hexToString payload) as [decoded|] eqn:Hdec.
    + left. split.
      * apply hexToString_valid_hex. now exists decoded.
      * exists decoded. repeat split; try assumption.
        now apply asciiToHex_hexToString.
    + right. split; [now apply hexToString_invalid_hex | exact Hres].
Qed.

(** C5, as amended.  If [makeKeyValueTag key value] is in the tag list
    and no tag before it starts with [kv:<key>:] (case-insensitively),
    then [getTagValue key] returns [value]. *)
Theorem getTagValue_makeKeyValueTag_first
    (key value : string) (d : DropletInfo) (before after : list string) :
  tags d = (before ++ makeKeyValueTag key value :: after)%list ->
  Forall (fun tag =>
            startsWithCaseInsensitive tag (makeKeyValueTagPrefix key) = false)
         before ->
  getTagValue key d = str value.
Proof.
  intros Htags Hbefore. unfold getTagValue.
  rewrite Htags, (getTagValue_in_skip _ _ _ Hbefore).
  cbn [getTagValue_in].
  rewrite makeKeyValueTag_split, startsWithCaseInsensitive_append.
  cbn [negb].
  now rewrite slice_from_append, hexToString_asciiToHex.
Qed.

Lemma getTagValue_makeKeyValueTag_first_witness :
  getTagValue "apiurl"
    (droplet_with_tags
       ["shadowbox"; makeKeyValueTag "apiurl" "https://10.0.0.1:8080/x/"; "kv:apiurl:00"])
  = str "https://10.0.0.1:8080/x/".
Proof.
  apply (getTagValue_makeKeyValueTag_first "apiurl" "https://10.0.0.1:8080/x/"
           _ ["shadowbox"] ["kv:apiurl:00"]).
  - reflexivity.
  - repeat constructor.
Defined.

(** C5, as stated, fails: a tag list can hold
    [makeKeyValueTag key value] behind another tag of the same key, and
    [getTagValue] answers with the earlier one. *)
Lemma getTagValue_roundtrip_counterexample :
  ~ (forall (key value : string) (d : DropletInfo),
        In (makeKeyValueTag key value) (tags d) -> getTagValue key d = str value).
Proof.
  intros H.
  specialize (H "apiurl" "https://new/"
                (droplet_with_tags [makeKeyValueTag "apiurl" "https://old/";
                                    makeKeyValueTag "apiurl" "https://new/"])).
  assert (E : getTagValue "apiurl"
                (droplet_with_tags [makeKeyValueTag "apiurl" "https://old/";
                                    makeKeyValueTag "apiurl" "https://new/"])
              = str "https://old/") by reflexivity.
  rewrite E in H.
  assert (In (makeKeyValueTag "apiurl" "https://new/")
             [makeKeyValueTag "apiurl" "https://old/";
              makeKeyValueTag "apiurl" "https://new/"]) as Hin
    by (right; left; reflexivity).
  specialize (H Hin). discriminate H.
Qed.

(** ** The install-state poller *)

Lemma InstallState_eqb_eq (a b : InstallState) :
  InstallState_eqb a b = true <-> a = b.
Proof.
  destruct a, b; cbn; split; intros E; try reflexivity; discriminate E.
Qed.

Lemma InstallState_eqb_UNKNOWN (st : InstallState) :
  st <> UNKNOWN -> InstallState_eqb st UNKNOWN = false.
Proof.
  destruct st; [intros H; now destruct H | reflexivity ..].
Qed.

Lemma set_installState_same (this : DigitalOceanServer) :
  set_installState (installState this) this = this.
Proof. now destruct this. Qed.

Lemma setApiUrlAndCertificate_installState (this : DigitalOceanServer) :
  installState (snd (setApiUrlAndCertificate this)) = installState this.
Proof.
  unfold setApiUrlAndCertificate.
  destruct (getCertificateFingerprint _); [|reflexivity].
  destruct (getManagementApiAddress _); reflexivity.
Qed.

(** From [UNKNOWN], [updateInstallState] computes the state from the
    tags and the clock alone. *)
Lemma updateInstallState_from_UNKNOWN (elapsed : Z) (this : DigitalOceanServer) :
  installState this = UNKNOWN ->
  installState (updateInstallState elapsed this) =
    if truthy (getTagValue INSTALL_ERROR_TAG (dropletInfo this)) then ERROR
    else if (elapsed >=? TIMEOUT_MS)%Z then ERROR
    else if fst (setApiUrlAndCertificate this) then SUCCESS
    else UNKNOWN.
Proof.
  intros Hst. unfold updateInstallState. rewrite Hst. cbn [InstallState_eqb InstallState_value Z.eqb negb].
  destruct (truthy _); [reflexivity|].
  destruct (elapsed >=? TIMEOUT_MS)%Z; [reflexivity|].
  pose proof (setApiUrlAndCertificate_installState this) as Hkeep.
  destruct (setApiUrlAndCertificate this) as [[|] this']; cbn in *; [reflexivity|].
  now rewrite Hkeep.
Qed.

Lemma updateInstallState_known (elapsed : Z) (this : DigitalOceanServer) :
  installState this <> UNKNOWN -> updateInstallState elapsed this = this.
Proof.
  intros Hst. unfold updateInstallState.
  now rewrite (InstallState_eqb_UNKNOWN _ Hst).
Qed.

Lemma updateInstallState_range (elapsed : Z) (this : DigitalOceanServer) :
  In (installState (updateInstallState elapsed this))
     (match installState this with
      | UNKNOWN => [UNKNOWN; SUCCESS; ERROR]
      | known => [known]
      end).
Proof.
  destruct (installState this) eqn:Hst.
  - rewrite (updateInstallState_from_UNKNOWN _ _ Hst).
    destruct (truthy _); [cbn; tauto|].
    destruct (elapsed >=? TIMEOUT_MS)%Z; [cbn; tauto|].
    destruct (fst _); cbn; tauto.
  - rewrite updateInstallState_known by (rewrite Hst; discriminate). left. now rewrite Hst.
  - rewrite updateInstallState_known by (rewrite Hst; discriminate). left. now rewrite Hst.
  - rewrite updateInstallState_known by (rewrite Hst; discriminate). left. now rewrite Hst.
Qed.

(** C1.  [InstallState] has exactly the four values [UNKNOWN],
    [SUCCESS], [ERROR], [DELETED], numbered 0 to 3, and the field
    [installState] holds one of them after any sequence of the
    operations that write it, starting from a new server.  Operation by
    operation: [updateInstallState] leaves a known state alone and
    moves [UNKNOWN] to [UNKNOWN], [SUCCESS] or [ERROR];
    [waitOnInstall(true)] ends in [UNKNOWN], [SUCCESS] or [ERROR];
    [waitOnInstall(false)] writes nothing; [onDelete] writes
    [DELETED]. *)
Theorem installState_four_states :
  NoDup [UNKNOWN; SUCCESS; ERROR; DELETED]
  /\ map InstallState_value [UNKNOWN; SUCCESS; ERROR; DELETED] = [0; 1; 2; 3]%Z
  /\ (forall st : InstallState, In st [UNKNOWN; SUCCESS; ERROR; DELETED])
  /\ (forall (ops : list operation) (d : DropletInfo),
         In (installState (perform_all ops (new_DigitalOceanServer d)))
            [UNKNOWN; SUCCESS; ERROR; DELETED])
  /\ (forall (elapsed : Z) (this : DigitalOceanServer),
         In (installState (updateInstallState elapsed this))
            (match installState this with
             | UNKNOWN => [UNKNOWN; SUCCESS; ERROR]
             | known => [known]
             end))
  /\ (forall (elapsed : Z) (this : DigitalOceanServer),
         In (installState (waitOnInstall_begin true elapsed this))
            [UNKNOWN; SUCCESS; ERROR])
  /\ (forall (elapsed : Z) (this : DigitalOceanServer),
         waitOnInstall_begin false elapsed this = this)
  /\ (forall this : DigitalOceanServer, installState (onDelete this) = DELETED).
Proof.
  assert (Hall : forall st : InstallState, In st [UNKNOWN; SUCCESS; ERROR; DELETED])
    by (intros []; cbn; tauto).
  repeat split.
  - repeat constructor; cbn; intuition discriminate.
  - exact Hall.
  - intros ops d. apply Hall.
  - apply updateInstallState_range.
  - intros elapsed this.
    unfold waitOnInstall_begin, refreshInstallState. cbn [snd].
    exact (updateInstallState_range elapsed (set_installState UNKNOWN this)).
Qed.

Lemma refreshed_updates_keep_known
    (answers : list (Z * DropletInfo)) (this : DigitalOceanServer) :
  installState this <> UNKNOWN ->
  installState (fold_left refreshed_update answers this) = installState this.
Proof.
  revert this.
  induction answers as [|[elapsed d] answers IH]; intros this Hst; [reflexivity|].
  cbn [fold_left]. unfold refreshed_update at 2.
  rewrite updateInstallState_known by exact Hst.
  rewrite IH by exact Hst. reflexivity.
Qed.

(** C4.  Once [installState] is [SUCCESS], [ERROR] or [DELETED],
    [updateInstallState] changes nothing, whatever the tags of the
    droplet and the time elapsed: the server object is the same
    afterwards.  A firing of the polling interval then stops the
    interval, and does so before it looks at the answer to its
    request.  Answers of [getDroplet] that a competing poller still
    receives afterwards replace the droplet info but not the state. *)
Theorem updateInstallState_never_overwrites
    (elapsed : Z) (this : DigitalOceanServer) :
  In (installState this) [SUCCESS; ERROR; DELETED] ->
  updateInstallState elapsed this = this
  /\ installState (updateInstallState elapsed this) = installState this
  /\ (forall response : option DropletInfo,
        refreshInstallState_tick elapsed response this = (false, this))
  /\ (forall answers : list (Z * DropletInfo),
        installState (fold_left refreshed_update answers this) = installState this).
Proof.
  intros Hin.
  assert (Hst : installState this <> UNKNOWN).
  { intros E. rewrite E in Hin. cbn in Hin. intuition discriminate. }
  rewrite (updateInstallState_known elapsed this Hst).
  split; [reflexivity | split; [reflexivity | split]].
  - intros response. unfold refreshInstallState_tick.
    now rewrite (InstallState_eqb_UNKNOWN _ Hst).
  - intros answers.
    now apply refreshed_updates_keep_known.
Qed.

Lemma updateInstallState_never_overwrites_witness :
  updateInstallState 0 (server_with DELETED installed_tags)
  = server_with DELETED installed_tags.
Proof.
  apply (updateInstallState_never_overwrites 0 (server_with DELETED installed_tags)).
  cbn. tauto.
Defined.

Lemma getTagValue_absent (key : string) (d : DropletInfo) :
  Forall (fun tag =>
            startsWithCaseInsensitive tag (makeKeyValueTagPrefix key) = false)
         (tags d) ->
  getTagValue key d = undefined.
Proof.
  intros Hnone. unfold getTagValue.
  rewrite <- (app_nil_r (tags d)).
  now rewrite (getTagValue_in_skip _ _ [] Hnone).
Qed.

Lemma updateInstallState_timeout_any (elapsed : Z) (this : DigitalOceanServer) :
  installState this = UNKNOWN ->
  (TIMEOUT_MS <= elapsed)%Z ->
  installState (updateInstallState elapsed this) = ERROR.
Proof.
  intros Hst Hlate.
  rewrite (updateInstallState_from_UNKNOWN _ _ Hst).
  destruct (truthy _); [reflexivity|].
  destruct (Z.geb_spec elapsed TIMEOUT_MS); [reflexivity | lia].
Qed.

(** C3.  [TIMEOUT_MS] is five minutes.  When [installState] is
    [UNKNOWN], no tag of the droplet is an install-error tag, and at
    least [TIMEOUT_MS] have elapsed since [refreshInstallState]
    started, [updateInstallState] sets [installState] to [ERROR]; so
    does the poll step that receives this droplet info. *)
Theorem updateInstallState_timeout
    (elapsed : Z) (this : DigitalOceanServer) :
  installState this = UNKNOWN ->
  Forall (fun tag =>
            startsWithCaseInsensitive tag
              (makeKeyValueTagPrefix INSTALL_ERROR_TAG) = false)
         (tags (dropletInfo this)) ->
  (TIMEOUT_MS <= elapsed)%Z ->
  TIMEOUT_MS = (5 * 60 * 1000)%Z
  /\ getTagValue INSTALL_ERROR_TAG (dropletInfo this) = undefined
  /\ installState (updateInstallState elapsed this) = ERROR
  /\ refreshInstallState_tick elapsed (Some (dropletInfo this)) this
     = (false, updateInstallState elapsed this).
Proof.
  intros Hst Hnotag Hlate.
  pose proof (updateInstallState_timeout_any elapsed this Hst Hlate) as Herr.
  split; [reflexivity | split; [now apply getTagValue_absent | split; [exact Herr|]]].
  unfold refreshInstallState_tick, refreshDropletInfo_then.
  rewrite Hst. cbn [InstallState_eqb InstallState_value Z.eqb negb].
  replace (set_dropletInfo (dropletInfo this) this) with this by now destruct this.
  now rewrite Herr.
Qed.

Lemma updateInstallState_timeout_witness :
  installState (updateInstallState 300000 (server_with UNKNOWN installed_tags))
  = ERROR.
Proof.
  apply (updateInstallState_timeout 300000 (server_with UNKNOWN installed_tags)).
  - reflexivity.
  - repeat constructor.
  - vm_compute. discriminate.
Defined.

(** C6, as amended.  With [installState] at [UNKNOWN]: if
    [getTagValue('install-error')] is a non-empty string, the state
    becomes [ERROR] even before the timeout and even when
    [setApiUrlAndCertificate] would succeed, and neither the API URL
    nor a certificate is stored; and once five minutes have elapsed the
    state becomes [ERROR] even when [setApiUrlAndCertificate] would
    succeed, again with nothing stored. *)
Theorem updateInstallState_priority
    (elapsed : Z) (this : DigitalOceanServer) :
  installState this = UNKNOWN ->
  truthy (getTagValue INSTALL_ERROR_TAG (dropletInfo this)) = true
  \/ (TIMEOUT_MS <= elapsed)%Z ->
  updateInstallState elapsed this = set_installState ERROR this.
Proof.
  intros Hst Hwhy. unfold updateInstallState.
  rewrite Hst. cbn [InstallState_eqb InstallState_value Z.eqb negb].
  destruct Hwhy as [Htag | Hlate].
  - now rewrite Htag.
  - destruct (truthy _); [reflexivity|].
    destruct (Z.geb_spec elapsed TIMEOUT_MS); [reflexivity | lia].
Qed.

Lemma updateInstallState_priority_witness :
  fst (setApiUrlAndCertificate (server_with UNKNOWN failed_tags)) = true
  /\ fst (setApiUrlAndCertificate (server_with UNKNOWN installed_tags)) = true
  /\ updateInstallState 0 (server_with UNKNOWN failed_tags)
     = server_with ERROR failed_tags
  /\ updateInstallState 300000 (server_with UNKNOWN installed_tags)
     = server_with ERROR installed_tags.
Proof.
  split; [reflexivity | split; [reflexivity | split]].
  - apply (updateInstallState_priority 0 (server_with UNKNOWN failed_tags)).
    + reflexivity.
    + left. reflexivity.
  - apply (updateInstallState_priority 300000 (server_with UNKNOWN installed_tags)).
    + reflexivity.
    + right. vm_compute. discriminate.
Defined.

(** C6, as stated, fails: a droplet can carry an install-error tag
    whose value is empty next to valid apiurl and certsha256 tags, and
    before the timeout the state then becomes [SUCCESS]. *)
Lemma updateInstallState_priority_counterexample :
  ~ (forall (elapsed : Z) (this : DigitalOceanServer),
        installState this = UNKNOWN ->
        (exists tag,
            In tag (tags (dropletInfo this))
            /\ startsWithCaseInsensitive tag
                 (makeKeyValueTagPrefix INSTALL_ERROR_TAG) = true) ->
        installState (updateInstallState elapsed this) = ERROR).
Proof.
  intros H.
  specialize (H 0%Z (server_with UNKNOWN empty_error_tags) eq_refl).
  assert (E : installState (updateInstallState 0 (server_with UNKNOWN empty_error_tags))
              = SUCCESS) by reflexivity.
  rewrite E in H.
  enough (SUCCESS = ERROR) by discriminate.
  apply H.
  exists (makeKeyValueTag "install-error" "").
  split; [left; reflexivity | reflexivity].
Qed.

(** ** [waitOnInstall] *)

Lemma waitOnInstall_tick_stopped (isHealthy : option bool) (w : Waiter)
    (observations : list InstallState) :
  intervalRunning w = false ->
  fold_left (waitOnInstall_tick isHealthy) observations w = w.
Proof.
  intros Hstop.
  induction observations as [|st observations IH]; [reflexivity|].
  cbn [fold_left]. unfold waitOnInstall_tick at 2.
  rewrite Hstop. exact IH.
Qed.

Lemma waitOnInstall_tick_unknowns (isHealthy : option bool) (w : Waiter)
    (unknowns : list InstallState) :
  Forall (eq UNKNOWN) unknowns ->
  fold_left (waitOnInstall_tick isHealthy) unknowns w = w.
Proof.
  induction 1 as [|st unknowns <- _ IH]; [reflexivity|].
  cbn [fold_left]. unfold waitOnInstall_tick at 2.
  destruct (intervalRunning w); exact IH.
Qed.

(** Either the state is [UNKNOWN] at every firing, or there is a first
    firing at which it is known. *)
Lemma observations_split (observations : list InstallState) :
  Forall (eq UNKNOWN) observations
  \/ exists unknowns st later,
       observations = (unknowns ++ st :: later)%list
       /\ Forall (eq UNKNOWN) unknowns /\ st <> UNKNOWN.
Proof.
  induction observations as [|st observations IH].
  - left. constructor.
  - destruct st.
    + destruct IH as [Hall | (unknowns & st & later & -> & Hunk & Hst)].
      * left. now constructor.
      * right. exists (UNKNOWN :: unknowns), st, later.
        repeat split; [now constructor | exact Hst].
    + right. exists [], SUCCESS, observations. repeat split; [constructor | discriminate].
    + right. exists [], ERROR, observations. repeat split; [constructor | discriminate].
    + right. exists [], DELETED, observations. repeat split; [constructor | discriminate].
Qed.

(** C2.  As long as every firing of the interval sees [UNKNOWN] the
    promise of [waitOnInstall] stays pending.  At the first firing that
    sees a known state [st] the promise is decided, whatever is seen
    later: for [SUCCESS] it is fulfilled when [isHealthy] resolves to
    true and rejected with [UnreachableServerError] when it resolves to
    false; for [ERROR] it is rejected with [ServerInstallFailedError];
    for [DELETED] with [DeletedServerError].  It is fulfilled exactly
    when [st] is [SUCCESS] and the server reports healthy. *)
Theorem waitOnInstall_settles
    (isHealthy : option bool) (unknowns later : list InstallState)
    (st : InstallState) :
  Forall (eq UNKNOWN) unknowns ->
  st <> UNKNOWN ->
  let settled := waitOnInstall isHealthy (unknowns ++ st :: later) in
  waitOnInstall isHealthy unknowns = pending
  /\ (st = SUCCESS -> isHealthy = Some true -> settled = fulfilled)
  /\ (st = SUCCESS -> isHealthy = Some false ->
      settled = rejected UnreachableServerError)
  /\ (st = ERROR -> settled = rejected ServerInstallFailedError)
  /\ (st = DELETED -> settled = rejected DeletedServerError)
  /\ (settled = fulfilled <-> st = SUCCESS /\ isHealthy = Some true).
Proof.
  intros Hunk Hst settled.
  assert (Hval : settled = promise (waitOnInstall_tick isHealthy new_Waiter st)).
  { unfold settled, waitOnInstall.
    rewrite fold_left_app, (waitOnInstall_tick_unknowns _ _ _ Hunk).
    cbn [fold_left].
    rewrite waitOnInstall_tick_stopped; [reflexivity|].
    destruct st; [now destruct Hst | reflexivity ..]. }
  split.
  { unfold waitOnInstall. now rewrite (waitOnInstall_tick_unknowns _ _ _ Hunk). }
  rewrite Hval. clear Hval settled.
  split; [|split; [|split; [|split; [|split]]]].
  - now intros -> ->.
  - now intros -> ->.
  - now intros ->.
  - now intros ->.
  - intros Hful.
    destruct st; cbn in Hful; try discriminate Hful.
    destruct isHealthy as [[|]|]; try discriminate Hful. now split.
  - intros [-> ->]. reflexivity.
Qed.

Lemma waitOnInstall_settles_witness :
  waitOnInstall (Some true) [UNKNOWN; UNKNOWN] = pending
  /\ waitOnInstall (Some true) [UNKNOWN; UNKNOWN; SUCCESS; DELETED] = fulfilled.
Proof.
  assert (Hunk : Forall (eq UNKNOWN) [UNKNOWN; UNKNOWN]) by repeat constructor.
  assert (Hst : SUCCESS <> UNKNOWN) by discriminate.
  pose proof (waitOnInstall_settles (Some true) [UNKNOWN; UNKNOWN] [DELETED]
                SUCCESS Hunk Hst) as (Hpending & Hok & _).
  split; [exact Hpending | exact (Hok eq_refl eq_refl)].
Defined.

(** ** Errors of the DigitalOcean API *)

Import digitalocean_account.

(** C7.  [processError] emits the ['account-connectivity-issue'] event
    if and only if the error is an [HttpError] with status code 401 or
    a [NetworkError], and then it does nothing else.  For any other
    error, an [HttpError] with another status included, it emits no
    event at all: it writes one message to the console. *)
Theorem processError_event (error : Error) :
  let connectivity_issue :=
    (exists message, error = HttpError 401 message) \/ error = NetworkError in
  EVENT_ACCOUNT_CONNECTIVITY_ISSUE = "account-connectivity-issue"
  /\ (In (emit EVENT_ACCOUNT_CONNECTIVITY_ISSUE) (processError error)
      <-> connectivity_issue)
  /\ (connectivity_issue ->
      processError error = [emit EVENT_ACCOUNT_CONNECTIVITY_ISSUE])
  /\ (~ connectivity_issue ->
      (forall event, ~ In (emit event) (processError error))
      /\ exists text, processError error = [console_error text]).
Proof.
  intros connectivity_issue. subst connectivity_issue.
  split; [reflexivity|].
  destruct error as [statusCode message | | message]; cbn [processError].
  - destruct (Z.eqb_spec statusCode 401) as [-> | Hne].
    + split; [|split].
      * split; [intros _; left; now exists message | intros _; now left].
      * reflexivity.
      * intros Hnot. exfalso. apply Hnot. left. now exists message.
    + split; [|split].
      * split.
        -- intros [H | []]. discriminate H.
        -- intros [[m [= E _]] | H]; [now destruct Hne | discriminate H].
      * intros [[m [= E _]] | H]; [now destruct Hne | discriminate H].
      * intros _. split; [|eexists; reflexivity].
        intros event [H | []]. discriminate H.
  - split; [|split].
    + split; [intros _; now right | intros _; now left].
    + reflexivity.
    + intros Hnot. exfalso. apply Hnot. now right.
  - split; [|split].
    + split.
      * intros [H | []]. discriminate H.
      * intros [[m H] | H]; discriminate H.
    + intros [[m H] | H]; discriminate H.
    + intros _. split; [|eexists; reflexivity].
      intros event [H | []]. discriminate H.
Qed.

(** ** The install script *)

Lemma token_char_allowed (c : ascii) :
  token_char c =
  existsb (Ascii.eqb c)
    (list_ascii_of_string
       "ABCDEFGHIJKLMNOPQRSTUVWXYZabcdefghijklmnopqrstuvwxyz0123456789_/-").
Proof.
  each_ascii c; reflexivity.
Qed.

Lemma token_char_false (c : ascii) :
  token_char c = false <->
  ~ In c (list_ascii_of_string
            "ABCDEFGHIJKLMNOPQRSTUVWXYZabcdefghijklmnopqrstuvwxyz0123456789_/-").
Proof.
  rewrite token_char_allowed.
  set (allowed := list_ascii_of_string _).
  split.
  - intros Hex Hin.
    assert (existsb (Ascii.eqb c) allowed = true) as Htrue.
    { apply existsb_exists. exists c. split; [exact Hin | apply Ascii.eqb_refl]. }
    rewrite Hex in Htrue. discriminate Htrue.
  - intros Hnot.
    destruct (existsb (Ascii.eqb c) allowed) eqn:Hex; [|reflexivity].
    apply existsb_exists in Hex as (x & Hin & Heq).
    apply Ascii.eqb_eq in Heq. subst x. now destruct Hnot.
Qed.

Lemma all_token_chars_false (s : string) :
  all_token_chars s = false <->
  exists c, In c (list_ascii_of_string s) /\ token_char c = false.
Proof.
  induction s as [|c s IH]; cbn [all_token_chars list_ascii_of_string].
  - split; [discriminate | intros (c & [] & _)].
  - destruct (token_char c) eqn:Hc; cbn [andb].
    + rewrite IH. split.
      * intros (x & Hin & Hx). exists x. split; [now right | exact Hx].
      * intros (x & [<- | Hin] & Hx); [congruence | now exists x].
    + split; [intros _; exists c; split; [now left | exact Hc] | reflexivity].
Qed.

Lemma pattern_test_false (s : string) :
  pattern_test s = false <->
  s = "" \/ exists c, In c (list_ascii_of_string s) /\ token_char c = false.
Proof.
  unfold pattern_test.
  destruct (String.eqb_spec s "") as [-> | Hne]; cbn [negb andb].
  - split; [now left | reflexivity].
  - rewrite all_token_chars_false. split; [now right | intros [E | H]; [now destruct Hne | exact H]].
Qed.

(** C8, as amended.  [getInstallScript] throws
    ['Invalid DigitalOcean Token'] if and only if the trimmed access
    token fails the pattern, that is, if and only if it is empty or has
    a character that is not a letter, a digit, an underscore, a slash
    or a hyphen.  Otherwise it returns the text made of the line
    [#!/bin/bash -eu], the export of the trimmed token as
    [DO_ACCESS_TOKEN], each optional export line exactly when its
    argument is truthy (a string that is given and not empty, a number
    that is given and not 0), the export of the server name as
    [SB_DEFAULT_SERVER_NAME], and the install script body. *)
Theorem getInstallScript_spec
    (SCRIPT accessToken name : string) (image : option string)
    (watchtowerRefreshSeconds : option Z) (metricsUrl sentryApiUrl : option string) :
  let token := trim accessToken in
  let result :=
    getInstallScript SCRIPT accessToken name image watchtowerRefreshSeconds
      metricsUrl sentryApiUrl in
  let allowed :=
    list_ascii_of_string
      "ABCDEFGHIJKLMNOPQRSTUVWXYZabcdefghijklmnopqrstuvwxyz0123456789_/-" in
  (pattern_test token = false <->
   token = "" \/ exists c, In c (list_ascii_of_string token) /\ ~ In c allowed)
  /\ (result = throws "Invalid DigitalOcean Token" <-> pattern_test token = false)
  /\ (pattern_test token = true ->
      result =
      returns
        ("#!/bin/bash -eu" ++ LF
         ++ ("export DO_ACCESS_TOKEN=" ++ token ++ LF)
         ++ match image with
            | Some (String _ _ as text) => "export SB_IMAGE=" ++ text ++ LF
            | _ => ""
            end
         ++ match watchtowerRefreshSeconds with
            | Some seconds =>
                if (seconds =? 0)%Z then ""
                else "export WATCHTOWER_REFRESH_SECONDS="
                     ++ number_to_string seconds ++ LF
            | None => ""
            end
         ++ match sentryApiUrl with
            | Some (String _ _ as text) =>
                "export SENTRY_API_URL=" ++ quote ++ text ++ quote ++ LF
            | _ => ""
            end
         ++ match metricsUrl with
            | Some (String _ _ as text) => "export SB_METRICS_URL=" ++ text ++ LF
            | _ => ""
            end
         ++ ("export SB_DEFAULT_SERVER_NAME=" ++ quote ++ name ++ quote ++ LF)
         ++ SCRIPT)).
Proof.
  intros token result allowed.
  split; [|split].
  - rewrite pattern_test_false. split.
    + intros [E | (c & Hin & Hc)]; [now left | right].
      exists c. split; [exact Hin | now apply token_char_false].
    + intros [E | (c & Hin & Hc)]; [now left | right].
      exists c. split; [exact Hin | now apply token_char_false].
  - unfold result, getInstallScript, sanitizeDigitalOceanToken. fold token.
    destruct (pattern_test token); cbn [negb].
    + split; discriminate.
    + split; reflexivity.
  - intros Hok.
    unfold result, getInstallScript, sanitizeDigitalOceanToken. fold token.
    rewrite Hok. cbn [negb].
    unfold image_line, watchtower_line, sentry_line, metrics_line.
    destruct image as [[|? ?]|], watchtowerRefreshSeconds as [seconds|],
      sentryApiUrl as [[|? ?]|], metricsUrl as [[|? ?]|];
      cbn [string_is_truthy number_is_truthy text_of number_text_of String.eqb negb];
      try destruct (seconds =? 0)%Z; reflexivity.
Qed.

Lemma getInstallScript_spec_witness :
  getInstallScript "BODY" "  dop_v1-0123/abc_XYZ " "my server"
    (Some "quay.io/outline/shadowbox:daily") (Some 30%Z) None (Some "")
  = returns
      ("#!/bin/bash -eu" ++ LF
       ++ "export DO_ACCESS_TOKEN=dop_v1-0123/abc_XYZ" ++ LF
       ++ "export SB_IMAGE=quay.io/outline/shadowbox:daily" ++ LF
       ++ "export WATCHTOWER_REFRESH_SECONDS=30" ++ LF
       ++ "export SB_DEFAULT_SERVER_NAME=" ++ quote ++ "my server" ++ quote ++ LF
       ++ "BODY").
Proof.
  refine (eq_trans
            (proj2 (proj2
               (getInstallScript_spec "BODY" "  dop_v1-0123/abc_XYZ " "my server"
                  (Some "quay.io/outline/shadowbox:daily") (Some 30%Z) None (Some "")))
               _) _).
  - reflexivity.
  - reflexivity.
Defined.

(** C8, as stated, fails where it says that an optional line is there
    exactly when its argument is set: with the image set to the empty
    string and the refresh period set to 0 the script is the one built
    with both left out, and has neither line, whatever the body. *)
Lemma getInstallScript_set_counterexample :
  Some "" <> None /\ Some 0%Z <> None
  /\ forall SCRIPT : string,
       getInstallScript SCRIPT "token" "name" (Some "") (Some 0%Z) None None
       = getInstallScript SCRIPT "token" "name" None None None None
       /\ getInstallScript SCRIPT "token" "name" (Some "") (Some 0%Z) None None
          = returns
              ("#!/bin/bash -eu" ++ LF
               ++ "export DO_ACCESS_TOKEN=token" ++ LF
               ++ "export SB_DEFAULT_SERVER_NAME=" ++ quote ++ "name" ++ quote ++ LF
               ++ SCRIPT).
Proof.
  split; [discriminate | split; [discriminate|]].
  intros SCRIPT. split; reflexivity.
Qed.

(** ** Locations *)

Lemma push_dataCenterId_regionIds (city slug : string)
    (locations : list DigitalOceanLocation) :
  map regionId (push_dataCenterId city slug locations) = map regionId locations.
Proof.
  induction locations as [|entry rest IH]; [reflexivity|].
  cbn [push_dataCenterId].
  destruct (String.eqb (regionId entry) city); cbn [map regionId]; [reflexivity|].
  now rewrite IH.
Qed.

(** With one entry for each city, [push_dataCenterId] extends the entry
    of [city] and no other. *)
Lemma push_dataCenterId_In (city slug : string)
    (locations : list DigitalOceanLocation) (location' : DigitalOceanLocation) :
  NoDup (map regionId locations) ->
  In location' (push_dataCenterId city slug locations) ->
  exists location,
    In location locations
    /\ regionId location' = regionId location
    /\ dataCenterIds location' =
       if String.eqb (regionId location) city
       then (dataCenterIds location ++ [slug])%list
       else dataCenterIds location.
Proof.
  induction locations as [|entry rest IH]; intros Hnodup Hin; [destruct Hin|].
  cbn [map] in Hnodup. apply NoDup_cons_iff in Hnodup as (Hfresh & Hrest).
  cbn [push_dataCenterId] in Hin.
  destruct (String.eqb (regionId entry) city) eqn:Hcity.
  - destruct Hin as [<- | Hin].
    + exists entry. cbn. rewrite Hcity. repeat split. now left.
    + exists location'. split; [now right | split; [reflexivity|]].
      destruct (String.eqb_spec (regionId location') city) as [E|]; [|reflexivity].
      exfalso. apply Hfresh. apply String.eqb_eq in Hcity.
      rewrite Hcity, <- E. now apply in_map.
  - destruct Hin as [<- | Hin].
    + exists entry. rewrite Hcity. repeat split. now left.
    + destruct (IH Hrest Hin) as (location & Hl & Hid & Hdc).
      exists location. split; [now right | now split].
Qed.

Lemma filter_none {A : Type} (f : A -> bool) (l : list A) :
  (forall x, In x l -> f x = false) -> filter f l = [].
Proof.
  induction l as [|x l IH]; intros Hf; [reflexivity|].
  cbn [filter]. rewrite (Hf x) by now left.
  apply IH. intros y Hy. apply Hf. now right.
Qed.

Section ListLocationsInvariant.

Lemma grouped_start : grouped [] [].
Proof.
  split; try (intros ? []). constructor.
Qed.

Lemma filter_snoc (city : string) (seen : list RegionInfo) (region : RegionInfo) :
  map slug (filter (in_city city) (seen ++ [region]))
  = (map slug (filter (in_city city) seen)
     ++ if in_city city region then [slug region] else [])%list.
Proof.
  rewrite filter_app, map_app. cbn [filter].
  now destruct (in_city city region).
Qed.

Lemma in_city_unsupported (city : string) (region : RegionInfo) :
  supports_outline region = false -> in_city city region = false.
Proof. intros Hno. unfold in_city. now rewrite Hno. Qed.

Lemma in_city_supported (city : string) (region : RegionInfo) :
  supports_outline region = true ->
  in_city city region = String.eqb (GetCityId (slug region)) city.
Proof. intros Hsup. unfold in_city. now rewrite Hsup. Qed.

Lemma grouped_skip seen locations region :
  supports_outline region = false ->
  grouped seen locations -> grouped (seen ++ [region]) locations.
Proof.
  intros Hno [Hnodup Hids Hall Hsome].
  split.
  - exact Hnodup.
  - intros location Hin. rewrite filter_snoc, (Hids _ Hin).
    rewrite (in_city_unsupported _ _ Hno). now rewrite app_nil_r.
  - intros r Hr Hsup. apply in_app_or in Hr as [Hr | [<- | []]].
    + now apply Hall.
    + congruence.
  - intros location Hin. destruct (Hsome _ Hin) as (r & Hr & Hcity).
    exists r. split; [apply in_or_app; now left | exact Hcity].
Qed.

Lemma grouped_push seen locations region entry :
  supports_outline region = true ->
  find (fun entry => String.eqb (regionId entry) (GetCityId (slug region)))
       locations = Some entry ->
  grouped seen locations ->
  grouped (seen ++ [region])
          (push_dataCenterId (GetCityId (slug region)) (slug region) locations).
Proof.
  intros Hsup Hfind [Hnodup Hids Hall Hsome].
  apply find_some in Hfind as (Hentry & Hcity). apply String.eqb_eq in Hcity.
  set (city := GetCityId (slug region)) in *.
  split.
  - now rewrite push_dataCenterId_regionIds.
  - intros location' Hin.
    destruct (push_dataCenterId_In _ _ _ _ Hnodup Hin) as (location & Hl & Hid & Hdc).
    rewrite filter_snoc, Hdc, Hid, (Hids _ Hl).
    rewrite (in_city_supported _ _ Hsup). fold city.
    rewrite (String.eqb_sym city).
    destruct (String.eqb (regionId location) city); [reflexivity|].
    now rewrite app_nil_r.
  - intros r Hr Hrsup. rewrite push_dataCenterId_regionIds.
    apply in_app_or in Hr as [Hr | [<- | []]].
    + now apply Hall.
    + fold city. rewrite <- Hcity. now apply in_map.
  - intros location' Hin.
    destruct (push_dataCenterId_In _ _ _ _ Hnodup Hin) as (location & Hl & Hid & _).
    destruct (Hsome _ Hl) as (r & Hr & Hrcity).
    exists r. split; [apply in_or_app; now left | now rewrite Hid].
Qed.

Lemma grouped_new seen locations region :
  supports_outline region = true ->
  find (fun entry => String.eqb (regionId entry) (GetCityId (slug region)))
       locations = None ->
  grouped seen locations ->
  grouped (seen ++ [region])
          (locations ++ [ {| regionId := GetCityId (slug region);
                             dataCenterIds := [slug region] |} ]).
Proof.
  intros Hsup Hfind [Hnodup Hids Hall Hsome].
  pose proof (find_none _ _ Hfind) as Hother. cbn beta in Hother.
  set (city := GetCityId (slug region)) in *.
  assert (Hfresh : ~ In city (map regionId locations)).
  { intros Hin. apply in_map_iff in Hin as (location & Hid & Hl).
    specialize (Hother _ Hl). rewrite Hid, String.eqb_refl in Hother.
    discriminate Hother. }
  assert (Hself : in_city city region = true).
  { unfold in_city. rewrite Hsup. apply String.eqb_refl. }
  split.
  - rewrite map_app. apply NoDup_app; [exact Hnodup | repeat constructor; intros [] |].
    intros a Ha [<- | []]. now apply Hfresh.
  - intros location Hin. rewrite filter_snoc.
    apply in_app_or in Hin as [Hin | [<- | []]].
    + rewrite (Hids _ Hin), (in_city_supported _ _ Hsup). fold city.
      rewrite String.eqb_sym, (Hother _ Hin). now rewrite app_nil_r.
    + cbn [regionId dataCenterIds]. rewrite Hself.
      rewrite filter_none; [reflexivity|].
      intros r Hr. destruct (in_city city r) eqn:Hrcity; [|reflexivity].
      exfalso. apply Hfresh.
      unfold in_city in Hrcity. apply andb_prop in Hrcity as (Hrsup & Hreq).
      apply String.eqb_eq in Hreq. rewrite <- Hreq. now apply Hall.
  - intros r Hr Hrsup. rewrite map_app. apply in_or_app.
    apply in_app_or in Hr as [Hr | [<- | []]].
    + left. now apply Hall.
    + right. now left.
  - intros location Hin.
    apply in_app_or in Hin as [Hin | [<- | []]].
    + destruct (Hsome _ Hin) as (r & Hr & Hrcity).
      exists r. split; [apply in_or_app; now left | exact Hrcity].
    + exists region. split; [apply in_or_app; right; now left | exact Hself].
Qed.

Lemma grouped_each seen locations region :
  grouped seen locations ->
  grouped (seen ++ [region]) (listLocations_each locations region).
Proof.
  intros Hinv. unfold listLocations_each.
  destruct (supports_outline region) eqn:Hsup; [|now apply grouped_skip].
  destruct (find _ locations) as [entry|] eqn:Hfind.
  - now apply (grouped_push _ _ _ entry).
  - now apply grouped_new.
Qed.

Lemma grouped_fold regionInfos : forall seen locations,
  grouped seen locations ->
  grouped (seen ++ regionInfos) (fold_left listLocations_each regionInfos locations).
Proof.
  induction regionInfos as [|region rest IH]; intros seen locations Hinv.
  - now rewrite app_nil_r.
  - cbn [fold_left].
    replace (seen ++ region :: rest)%list with ((seen ++ [region]) ++ rest)%list
      by now rewrite <- app_assoc.
    apply IH. now apply grouped_each.
Qed.

End ListLocationsInvariant.

(** C9, as amended.  [listLocations] keeps the regions that are
    available and offer the machine size, and groups them by city (the
    first three characters of the slug, in lower case).  There is one
    location for each city; its [dataCenterIds] are the slugs of the
    kept regions of that city, in the order of the provider, and are
    not empty; every kept region is found in the location of its
    city. *)
Theorem listLocations_groups_by_city (regionInfos : list RegionInfo) :
  let locations := listLocations regionInfos in
  NoDup (map regionId locations)
  /\ (forall location, In location locations ->
        dataCenterIds location
        = map slug
            (filter (fun region =>
                       available region
                       && existsb (String.eqb "s-1vcpu-1gb") (sizes region)
                       && String.eqb (toLowerCase (slice_to 3 (slug region)))
                                     (regionId location))
                    regionInfos)
        /\ dataCenterIds location <> [])
  /\ (forall region, In region regionInfos ->
        available region = true -> In "s-1vcpu-1gb" (sizes region) ->
        exists location,
          In location locations
          /\ regionId location = toLowerCase (slice_to 3 (slug region))
          /\ In (slug region) (dataCenterIds location)).
Proof.
  intros locations. subst locations. unfold listLocations.
  destruct (grouped_fold regionInfos [] [] grouped_start)
    as [Hnodup Hids Hall Hsome].
  cbn [app] in *.
  split; [exact Hnodup | split].
  - intros location Hin. split.
    + exact (Hids location Hin).
    + destruct (Hsome _ Hin) as (region & Hr & Hcity).
      rewrite (Hids _ Hin). intros Hnil.
      assert (Hslug : In (slug region)
                         (map slug (filter (in_city (regionId location)) regionInfos))).
      { apply in_map, filter_In. now split. }
      rewrite Hnil in Hslug. destruct Hslug.
  - intros region Hr Havailable Hsize.
    assert (Hsup : supports_outline region = true).
    { unfold supports_outline, offers_machine_size. rewrite Havailable. cbn [andb].
      apply existsb_exists. exists "s-1vcpu-1gb". split; [exact Hsize | reflexivity]. }
    apply (Hall _ Hr) in Hsup as Hcity.
    apply in_map_iff in Hcity as (location & Hid & Hin).
    exists location. split; [exact Hin | split; [exact Hid|]].
    rewrite (Hids _ Hin). apply in_map, filter_In. split; [exact Hr|].
    unfold in_city. rewrite Hsup, Hid. apply String.eqb_refl.
Qed.

(** C9, as stated, fails: [listLocations] does not hand every region
    on as a location.  Of the four sample regions the one that is not
    available and the one without the machine size are dropped, and the
    two data centers in New York are put into one location. *)
Lemma listLocations_passthrough_counterexample :
  listLocations some_regions
  = [ {| regionId := "nyc"; dataCenterIds := ["nyc1"; "NYC3"] |} ]
  /\ ~ (forall regionInfos region,
           In region regionInfos ->
           exists location,
             In location (listLocations regionInfos)
             /\ In (slug region) (dataCenterIds location))
  /\ ~ (forall regionInfos,
           List.length (listLocations regionInfos) = List.length regionInfos).
Proof.
  split; [reflexivity | split].
  - intros H.
    destruct (H some_regions (region "ams2" false ["s-1vcpu-1gb"]))
      as (location & Hin & Hslug).
    + right. left. reflexivity.
    + destruct Hin as [<- | []].
      cbn in Hslug. destruct Hslug as [E | [E | []]]; discriminate E.
  - intros H. specialize (H some_regions). discriminate H.
Qed.

(* ================================================================== *)
(** * Part III.  Further properties of the two files                   *)
(* ================================================================== *)

(** ** The management API address *)

Lemma length_append (a b : string) :
  String.length (a ++ b) = String.length a + String.length b.
Proof.
  induction a as [|c a IH]; cbn; [reflexivity | now rewrite IH].
Qed.

Lemma endsWith_append_slash (a : string) : endsWith (a ++ "/") "/" = true.
Proof.
  unfold endsWith. rewrite length_append. cbn [String.length].
  replace (String.length a + 1 - 1) with (String.length a) by lia.
  rewrite slice_from_append, String.eqb_refl. cbn [andb].
  apply Nat.leb_le. lia.
Qed.

Lemma truthy_str (v : value) :
  truthy v = true -> exists s, v = str s /\ s <> "".
Proof.
  destruct v as [| |s]; cbn; try discriminate.
  intros H. exists s. split; [reflexivity|].
  intros ->. discriminate H.
Qed.

Lemma with_slash_ends (address : string) :
  endsWith (if negb (endsWith address "/") then address ++ "/" else address) "/"
  = true.
Proof.
  destruct (endsWith address "/") eqn:E; cbn [negb];
    [exact E | apply endsWith_append_slash].
Qed.

Lemma getManagementApiAddress_ends_with_slash_aux
    (d : DropletInfo) (address : string) :
  getManagementApiAddress d = Some address -> endsWith address "/" = true.
Proof.
  unfold getManagementApiAddress.
  match goal with
  | |- match ?found with _ => _ end = _ -> _ => destruct found as [a|]
  end; [|discriminate].
  pose proof (with_slash_ends a) as Hends.
  destruct (negb (endsWith a "/")); intros [= <-]; exact Hends.
Qed.

(** X1.  Whatever the tags and networks of the droplet, an address that
    [getManagementApiAddress] returns ends with a slash. *)
Theorem getManagementApiAddress_ends_with_slash
    (d : DropletInfo) (address : string) :
  getManagementApiAddress d = Some address -> endsWith address "/" = true.
Proof.
  unfold getManagementApiAddress.
  destruct (getTagValue API_URL_TAG d) as [| |url]; cbn [truthy negb to_text].
  1-2: destruct (truthy (getTagValue DEPRECATED_API_PORT_TAG d)); cbn [negb];
       [|discriminate];
       destruct (truthy (ipv4Address d)); cbn [negb]; [|discriminate];
       destruct (truthy (getTagValue DEPRECATED_API_PREFIX_TAG d));
       match goal with
       | |- context [negb (endsWith ?a "/")] =>
           pose proof (with_slash_ends a) as Hends;
           destruct (negb (endsWith a "/"))
       end; intros [= <-]; exact Hends.
  destruct (String.eqb url ""); cbn [negb].
  - destruct (truthy (getTagValue DEPRECATED_API_PORT_TAG d)); cbn [negb];
      [|discriminate].
    destruct (truthy (ipv4Address d)); cbn [negb]; [|discriminate].
    destruct (truthy (getTagValue DEPRECATED_API_PREFIX_TAG d));
      match goal with
      | |- context [negb (endsWith ?a "/")] =>
          pose proof (with_slash_ends a) as Hends;
          destruct (negb (endsWith a "/"))
      end; intros [= <-]; exact Hends.
  - pose proof (with_slash_ends url) as Hends.
    destruct (negb (endsWith url "/")); intros [= <-]; exact Hends.
Qed.

Lemma getManagementApiAddress_ends_with_slash_witness :
  endsWith "https://203.0.113.7:31337/TopSecret/" "/" = true.
Proof.
  apply (getManagementApiAddress_ends_with_slash (droplet_with_tags installed_tags)).
  reflexivity.
Defined.


(** X2.  When the droplet has a non-empty [apiurl] tag value, that value is
    the address, with a slash added unless it ends with one; the
    deprecated [apiport] and [apiprefix] tags and the networks of the
    droplet play no part. *)
Theorem getManagementApiAddress_apiurl (d : DropletInfo) (url : string) :
  getTagValue API_URL_TAG d = str url ->
  url <> "" ->
  getManagementApiAddress d
  = Some (if endsWith url "/" then url else url ++ "/").
Proof.
  intros Hurl Hne. unfold getManagementApiAddress.
  rewrite Hurl. cbn [truthy to_text].
  destruct (String.eqb_spec url "") as [E|_]; [now destruct Hne|].
  cbn [negb].
  destruct (endsWith url "/") eqn:Hends; cbn [negb]; reflexivity.
Qed.

Lemma getManagementApiAddress_apiurl_witness :
  getManagementApiAddress
    (droplet_with_tags
       [makeKeyValueTag "apiport" "1234";
        makeKeyValueTag "apiurl" "https://203.0.113.7:31337/TopSecret"])
  = Some "https://203.0.113.7:31337/TopSecret/".
Proof.
  apply (getManagementApiAddress_apiurl _ "https://203.0.113.7:31337/TopSecret").
  - reflexivity.
  - discriminate.
Defined.

(** X3.  Without a usable [apiurl] tag the address is built from the
    deprecated tags: [https://<ip>:<port>/], followed by the prefix and
    a slash when there is an [apiprefix] tag.  The function throws
    exactly when there is no usable [apiurl] tag and the port tag or
    the public IPv4 address is missing or empty. *)
Theorem getManagementApiAddress_deprecated (d : DropletInfo) :
  truthy (getTagValue API_URL_TAG d) = false ->
  (getManagementApiAddress d = None <->
   truthy (getTagValue DEPRECATED_API_PORT_TAG d) = false
   \/ truthy (ipv4Address d) = false)
  /\ (forall port ip,
        getTagValue DEPRECATED_API_PORT_TAG d = str port -> port <> "" ->
        ipv4Address d = str ip -> ip <> "" ->
        getManagementApiAddress d
        = Some ("https://" ++ ip ++ ":" ++ port ++ "/"
                ++ match getTagValue DEPRECATED_API_PREFIX_TAG d with
                   | str (String _ _ as apiPrefix) => apiPrefix ++ "/"
                   | _ => ""
                   end)).
Proof.
  intros Hno. unfold getManagementApiAddress. rewrite Hno. cbn [negb].
  split.
  - destruct (truthy (getTagValue DEPRECATED_API_PORT_TAG d)); cbn [negb].
    + destruct (truthy (ipv4Address d)); cbn [negb].
      * split; [|intros [H|H]; discriminate H].
        destruct (truthy (getTagValue DEPRECATED_API_PREFIX_TAG d));
          match goal with
          | |- context [negb (endsWith ?a "/")] => destruct (negb (endsWith a "/"))
          end; discriminate.
      * split; [now right | reflexivity].
    + split; [now left | reflexivity].
  - intros port ip Hport Hp Hip Hi.
    rewrite Hport, Hip. cbn [truthy to_text].
    destruct (String.eqb_spec port "") as [E|_]; [now destruct Hp|].
    destruct (String.eqb_spec ip "") as [E|_]; [now destruct Hi|].
    cbn [negb].
    destruct (getTagValue DEPRECATED_API_PREFIX_TAG d) as [| |[|c apiPrefix]];
      cbn [truthy to_text String.eqb negb].
    1-3: rewrite append_empty_r;
      replace ("https://" ++ ip ++ ":" ++ port ++ "/")
        with (("https://" ++ ip ++ ":" ++ port) ++ "/")
        by (now rewrite !append_assoc);
      now rewrite endsWith_append_slash.
    replace (("https://" ++ ip ++ ":" ++ port ++ "/") ++ String c apiPrefix ++ "/")
      with ((("https://" ++ ip ++ ":" ++ port ++ "/") ++ String c apiPrefix) ++ "/")
      by (now rewrite !append_assoc).
    rewrite endsWith_append_slash. cbn [negb].
    now rewrite !append_assoc.
Qed.

Import more_samples.

Lemma getManagementApiAddress_deprecated_witness :
  getManagementApiAddress legacy_droplet
  = Some "https://203.0.113.9:8081/TopSecret/".
Proof.
  refine (proj2 (getManagementApiAddress_deprecated legacy_droplet _)
            "8081" "203.0.113.9" _ _ _ _).
  - reflexivity.
  - reflexivity.
  - discriminate.
  - reflexivity.
  - discriminate.
Defined.

(** ** Storing the API URL and the certificate *)

(** X4.  [setApiUrlAndCertificate] is all or nothing.  It returns true
    exactly when both the certificate fingerprint and the API address
    can be read from the tags; then it stores the address and trusts
    the base64 fingerprint.  When it returns false the server object
    is left as it was: a fingerprint without an address is not
    trusted. *)
Theorem setApiUrlAndCertificate_all_or_nothing (this : DigitalOceanServer) :
  let d := dropletInfo this in
  (fst (setApiUrlAndCertificate this) = true <->
   exists fingerprint address,
     getCertificateFingerprint d = Some fingerprint
     /\ getManagementApiAddress d = Some address)
  /\ (fst (setApiUrlAndCertificate this) = false ->
      snd (setApiUrlAndCertificate this) = this)
  /\ (forall fingerprint address,
        getCertificateFingerprint d = Some fingerprint ->
        getManagementApiAddress d = Some address ->
        snd (setApiUrlAndCertificate this)
        = {| installState := installState this;
             dropletInfo := d;
             managementApiUrl := Some address;
             trustedCertificates := fingerprint :: trustedCertificates this |}).
Proof.
  intros d. subst d. unfold setApiUrlAndCertificate.
  destruct (getCertificateFingerprint (dropletInfo this)) as [fp|].
  - destruct (getManagementApiAddress (dropletInfo this)) as [a|]; cbn [fst snd].
    + split; [|split].
      * split; [intros _; now exists fp, a | reflexivity].
      * discriminate.
      * now intros ? ? [= <-] [= <-].
    + split; [|split].
      * split; [discriminate | intros (? & ? & _ & H); discriminate H].
      * reflexivity.
      * intros ? ? _ H. discriminate H.
  - cbn [fst snd]. split; [|split].
    + split; [discriminate | intros (? & ? & H & _); discriminate H].
    + reflexivity.
    + intros ? ? H. discriminate H.
Qed.

Lemma setApiUrlAndCertificate_keeps (this : DigitalOceanServer) :
  fst (setApiUrlAndCertificate this) = false ->
  snd (setApiUrlAndCertificate this) = this.
Proof.
  unfold setApiUrlAndCertificate.
  destruct (getCertificateFingerprint _); [|reflexivity].
  destruct (getManagementApiAddress _); [discriminate | reflexivity].
Qed.

(** X5.  While the installation is neither finished nor failed,
    [updateInstallState] is invisible: if the state is [UNKNOWN]
    before and after the call, the server object has not changed, the
    droplet has no usable install-error value and the timeout has not
    been reached. *)
Theorem updateInstallState_waiting (elapsed : Z) (this : DigitalOceanServer) :
  installState this = UNKNOWN ->
  installState (updateInstallState elapsed this) = UNKNOWN ->
  updateInstallState elapsed this = this
  /\ truthy (getTagValue INSTALL_ERROR_TAG (dropletInfo this)) = false
  /\ (elapsed < TIMEOUT_MS)%Z
  /\ fst (setApiUrlAndCertificate this) = false.
Proof.
  intros Hst. unfold updateInstallState. rewrite Hst.
  cbn [InstallState_eqb InstallState_value Z.eqb negb].
  destruct (truthy _); [discriminate|].
  destruct (Z.geb_spec elapsed TIMEOUT_MS) as [|Hearly]; [discriminate|].
  pose proof (setApiUrlAndCertificate_keeps this) as Hkeep.
  destruct (setApiUrlAndCertificate this) as [[|] this']; cbn [fst snd] in *.
  - discriminate.
  - intros _. repeat split; [now apply Hkeep | exact Hearly].
Qed.

Lemma updateInstallState_waiting_witness :
  updateInstallState 1000 (server_with UNKNOWN ["shadowbox"])
  = server_with UNKNOWN ["shadowbox"].
Proof.
  apply (updateInstallState_waiting 1000 (server_with UNKNOWN ["shadowbox"])).
  - reflexivity.
  - reflexivity.
Defined.

(** X6.  A droplet is ready when its tags give a non-empty API URL and a
    non-empty certificate fingerprint and no install-error value.
    Before the timeout, [updateInstallState] moves a server with a
    ready droplet from [UNKNOWN] to [SUCCESS], stores the URL with a
    slash at its end and trusts the base64 of the fingerprint. *)
Theorem updateInstallState_ready
    (elapsed : Z) (this : DigitalOceanServer) (url fingerprint : string) :
  installState this = UNKNOWN ->
  (elapsed < TIMEOUT_MS)%Z ->
  truthy (getTagValue INSTALL_ERROR_TAG (dropletInfo this)) = false ->
  getTagValue API_URL_TAG (dropletInfo this) = str url -> url <> "" ->
  getTagValue CERTIFICATE_FINGERPRINT_TAG (dropletInfo this) = str fingerprint ->
  fingerprint <> "" ->
  updateInstallState elapsed this
  = {| installState := SUCCESS;
       dropletInfo := dropletInfo this;
       managementApiUrl := Some (if endsWith url "/" then url else url ++ "/");
       trustedCertificates := btoa fingerprint :: trustedCertificates this |}.
Proof.
  intros Hst Hearly Hnoerr Hurl Hu Hfp Hf.
  unfold updateInstallState. rewrite Hst, Hnoerr.
  cbn [InstallState_eqb InstallState_value Z.eqb negb].
  destruct (Z.geb_spec elapsed TIMEOUT_MS); [lia|].
  unfold setApiUrlAndCertificate, getCertificateFingerprint.
  rewrite Hfp. cbn [truthy to_text].
  destruct (String.eqb_spec fingerprint "") as [E|_]; [now destruct Hf|].
  cbn [negb].
  unfold getManagementApiAddress. rewrite Hurl. cbn [truthy to_text].
  destruct (String.eqb_spec url "") as [E|_]; [now destruct Hu|].
  cbn [negb].
  now destruct (endsWith url "/").
Qed.

Lemma updateInstallState_ready_witness :
  updateInstallState 0 (server_with UNKNOWN installed_tags)
  = {| installState := SUCCESS;
       dropletInfo := droplet_with_tags installed_tags;
       managementApiUrl := Some "https://203.0.113.7:31337/TopSecret/";
       trustedCertificates := ["MDEyMzQ1Njc4OUFCQ0RFRg=="] |}.
Proof.
  apply (updateInstallState_ready 0 (server_with UNKNOWN installed_tags)
           "https://203.0.113.7:31337/TopSecret" "0123456789ABCDEF").
  - reflexivity.
  - reflexivity.
  - reflexivity.
  - reflexivity.
  - discriminate.
  - reflexivity.
  - discriminate.
Defined.

(** ** Invariants of the server object *)

Import digitalocean_server_lifecycle.

Lemma setApiUrlAndCertificate_found (this this' : DigitalOceanServer) :
  setApiUrlAndCertificate this = (true, this') ->
  trustedCertificates this' <> []
  /\ exists address,
       managementApiUrl this' = Some address /\ endsWith address "/" = true.
Proof.
  unfold setApiUrlAndCertificate.
  destruct (getCertificateFingerprint _) as [fp|]; [|discriminate].
  destruct (getManagementApiAddress _) as [a|] eqn:Ha; [|discriminate].
  intros [= <-]. cbn. split; [discriminate|].
  exists a. split; [reflexivity|].
  now apply (getManagementApiAddress_ends_with_slash_aux (dropletInfo this)).
Qed.

(** The two facts that every operation keeps: a stored API URL ends
    with a slash, and in state [SUCCESS] a URL is stored and a
    certificate is trusted. *)
Lemma updateInstallState_keeps_ready (elapsed : Z) (this : DigitalOceanServer) :
  (forall address, managementApiUrl this = Some address ->
                   endsWith address "/" = true) ->
  (installState this = SUCCESS ->
   managementApiUrl this <> None /\ trustedCertificates this <> []) ->
  let this' := updateInstallState elapsed this in
  (forall address, managementApiUrl this' = Some address ->
                   endsWith address "/" = true)
  /\ (installState this' = SUCCESS ->
      managementApiUrl this' <> None /\ trustedCertificates this' <> []).
Proof.
  intros Hslash Hready. cbv zeta. unfold updateInstallState.
  destruct (negb (InstallState_eqb (installState this) UNKNOWN)); [now split|].
  destruct (truthy _); [split; [exact Hslash | discriminate]|].
  destruct (elapsed >=? TIMEOUT_MS)%Z; [split; [exact Hslash | discriminate]|].
  destruct (setApiUrlAndCertificate this) as [[|] this'] eqn:Hset.
  - destruct (setApiUrlAndCertificate_found _ _ Hset) as (Hcert & a & Ha & Hends).
    cbn. split.
    + intros address. rewrite Ha. now intros [= <-].
    + intros _. split; [now rewrite Ha | exact Hcert].
  - pose proof (setApiUrlAndCertificate_keeps this) as Hkeep.
    rewrite Hset in Hkeep. cbn [fst snd] in Hkeep. rewrite (Hkeep eq_refl).
    now split.
Qed.

(** X7.  In every state a server object can reach from its construction by
    the operations that write [installState], a stored management API
    URL ends with a slash; and whenever the state is [SUCCESS] a URL is
    stored and a certificate fingerprint has been trusted. *)
Theorem success_has_api_url (ops : list operation) (d : DropletInfo) :
  let this := perform_all ops (new_DigitalOceanServer d) in
  (forall address, managementApiUrl this = Some address ->
                   endsWith address "/" = true)
  /\ (installState this = SUCCESS ->
      managementApiUrl this <> None /\ trustedCertificates this <> []).
Proof.
  cbv zeta. unfold perform_all.
  assert (Hgen : forall ops this,
             (forall address, managementApiUrl this = Some address ->
                              endsWith address "/" = true) ->
             (installState this = SUCCESS ->
              managementApiUrl this <> None /\ trustedCertificates this <> []) ->
             (forall address,
                 managementApiUrl (fold_left perform ops this) = Some address ->
                 endsWith address "/" = true)
             /\ (installState (fold_left perform ops this) = SUCCESS ->
                 managementApiUrl (fold_left perform ops this) <> None
                 /\ trustedCertificates (fold_left perform ops this) <> [])).
  { clear ops. induction ops as [|op ops IH]; intros this Hslash Hready;
      [now split|].
    cbn [fold_left].
    assert (Hstep :
              (forall address, managementApiUrl (perform this op) = Some address ->
                               endsWith address "/" = true)
              /\ (installState (perform this op) = SUCCESS ->
                  managementApiUrl (perform this op) <> None
                  /\ trustedCertificates (perform this op) <> [])).
    { destruct op as [elapsed | elapsed response | resetTimeout elapsed |];
        cbn [perform].
      - now apply updateInstallState_keeps_ready.
      - unfold refreshInstallState_tick.
        destruct (negb (InstallState_eqb (installState this) UNKNOWN));
          [now split|].
        destruct response as [newInfo|]; [|now split].
        cbn [snd].
        now apply (updateInstallState_keeps_ready elapsed
                     (refreshDropletInfo_then newInfo this)).
      - unfold waitOnInstall_begin, refreshInstallState.
        destruct resetTimeout; [|now split].
        cbn [snd].
        apply (updateInstallState_keeps_ready elapsed (set_installState UNKNOWN this)).
        + exact Hslash.
        + discriminate.
      - split; [exact Hslash | discriminate]. }
    destruct Hstep as (Hs & Hr). now apply IH. }
  apply Hgen; [discriminate | discriminate].
Qed.

(** ** Deleting a server *)

(** X8.  After a successful [delete()] the state is [DELETED] and stays so
    under every later answer that a poller receives; a
    [waitOnInstall(false)] whose interval first fires after the
    deletion is rejected with [DeletedServerError], whatever the health
    of the server.  A [delete()] that fails changes nothing. *)
Theorem delete_is_final_for_pollers
    (this : DigitalOceanServer) (answers : list (Z * DropletInfo))
    (isHealthy : option bool) (later : list InstallState) :
  let deleted := DigitalOceanHost_delete true this in
  let polled := fold_left refreshed_update answers deleted in
  installState deleted = DELETED
  /\ installState polled = DELETED
  /\ waitOnInstall isHealthy (installState polled :: later)
     = rejected DeletedServerError
  /\ DigitalOceanHost_delete false this = this.
Proof.
  cbv zeta. cbn [DigitalOceanHost_delete].
  assert (Hpolled : installState (fold_left refreshed_update answers (onDelete this))
                    = DELETED).
  { rewrite refreshed_updates_keep_known; [reflexivity | discriminate]. }
  split; [reflexivity | split; [exact Hpolled | split; [|reflexivity]]].
  rewrite Hpolled. unfold waitOnInstall. cbn [fold_left].
  now rewrite waitOnInstall_tick_stopped.
Qed.



(** ** The polling interval *)

(** X10.  The interval of [refreshInstallState] does not time out on its
    own: the timeout is looked at only after a request has succeeded.
    As long as every [getDroplet] request fails, the state stays
    [UNKNOWN], the server is untouched and the interval keeps running,
    however much time has elapsed. *)
Theorem refreshInstallState_interval_failing_requests
    (firings : list (Z * option DropletInfo)) (this : DigitalOceanServer) :
  installState this = UNKNOWN ->
  Forall (fun firing => snd firing = None) firings ->
  refreshInstallState_interval firings this = (true, this).
Proof.
  intros Hst Hfail.
  induction Hfail as [|[elapsed response] firings Hnone _ IH]; [reflexivity|].
  cbn [snd] in Hnone. subst response.
  cbn [refreshInstallState_interval]. unfold refreshInstallState_tick.
  rewrite Hst. cbn [InstallState_eqb InstallState_value Z.eqb negb].
  exact IH.
Qed.

Lemma refreshInstallState_interval_failing_requests_witness :
  refreshInstallState_interval
    [(3000%Z, None); (300000%Z, None); (900000%Z, None)]
    (server_with UNKNOWN installed_tags)
  = (true, server_with UNKNOWN installed_tags).
Proof.
  apply refreshInstallState_interval_failing_requests.
  - reflexivity.
  - repeat constructor.
Defined.

Lemma refreshInstallState_tick_stops (elapsed : Z)
    (response : option DropletInfo) (this this' : DigitalOceanServer) :
  refreshInstallState_tick elapsed response this = (false, this') ->
  installState this' <> UNKNOWN.
Proof.
  unfold refreshInstallState_tick.
  destruct (InstallState_eqb (installState this) UNKNOWN) eqn:Hst; cbn [negb].
  - destruct response as [d|]; [|discriminate].
    intros [= Hrun <-]. intros E. rewrite E in Hrun. discriminate Hrun.
  - intros [= <-]. intros E. rewrite E in Hst. discriminate Hst.
Qed.

Lemma refreshInstallState_tick_runs (elapsed : Z)
    (response : option DropletInfo) (this this' : DigitalOceanServer) :
  refreshInstallState_tick elapsed response this = (true, this') ->
  installState this' = UNKNOWN
  /\ (forall d, response = Some d -> (elapsed < TIMEOUT_MS)%Z).
Proof.
  unfold refreshInstallState_tick.
  destruct (InstallState_eqb (installState this) UNKNOWN) eqn:Hst; cbn [negb];
    [|discriminate].
  apply InstallState_eqb_eq in Hst.
  destruct response as [d|].
  - intros [= Hrun <-]. apply InstallState_eqb_eq in Hrun. split; [exact Hrun|].
    intros ? _.
    destruct (Z.ltb_spec elapsed TIMEOUT_MS) as [|Hlate]; [assumption|].
    rewrite (updateInstallState_timeout_any elapsed
               (refreshDropletInfo_then d this) Hst Hlate) in Hrun.
    discriminate Hrun.
  - intros [= <-]. split; [exact Hst | discriminate].
Qed.

(** X11.  The interval is cleared only when the state is known, and a
    request that succeeds once the timeout has been reached always
    clears it: if some firing at or after [TIMEOUT_MS] gets an answer,
    the interval has stopped by then and the state is no longer
    [UNKNOWN]. *)
Theorem refreshInstallState_interval_ends
    (firings : list (Z * option DropletInfo)) (this : DigitalOceanServer)
    (elapsed : Z) (d : DropletInfo) :
  In (elapsed, Some d) firings ->
  (TIMEOUT_MS <= elapsed)%Z ->
  fst (refreshInstallState_interval firings this) = false
  /\ installState (snd (refreshInstallState_interval firings this)) <> UNKNOWN.
Proof.
  intros Hin Hlate. revert this.
  induction firings as [|[e r] firings IH]; intros this; [destruct Hin|].
  cbn [refreshInstallState_interval].
  destruct (refreshInstallState_tick e r this) as [[|] this'] eqn:Htick.
  - destruct Hin as [[= -> ->] | Hin].
    + destruct (refreshInstallState_tick_runs _ _ _ _ Htick) as (_ & Hearly).
      specialize (Hearly d eq_refl). lia.
    + now apply IH.
  - cbn [fst snd]. split; [reflexivity|].
    now apply (refreshInstallState_tick_stops _ _ _ _ Htick).
Qed.

Lemma refreshInstallState_interval_ends_witness :
  fst (refreshInstallState_interval
         [(3000%Z, None); (300000%Z, None); (303000%Z, Some (droplet_with_tags []))]
         (server_with UNKNOWN []))
  = false.
Proof.
  apply (refreshInstallState_interval_ends _ _ 303000%Z (droplet_with_tags [])).
  - right. right. left. reflexivity.
  - vm_compute. discriminate.
Defined.

(** ** [waitOnInstall] and the health check *)

(** X12.  [waitOnInstall] has no handler for a health check that does not
    resolve.  Once its interval has seen [SUCCESS] the interval is
    cleared, so if the promise of [isHealthy] never resolves the
    promise of [waitOnInstall] stays pending for good, also when the
    server fails or is deleted afterwards. *)
Theorem waitOnInstall_hangs_without_health
    (unknowns later : list InstallState) :
  Forall (eq UNKNOWN) unknowns ->
  waitOnInstall None (unknowns ++ SUCCESS :: later) = pending.
Proof.
  intros Hunk. unfold waitOnInstall.
  rewrite fold_left_app, (waitOnInstall_tick_unknowns _ _ _ Hunk).
  cbn [fold_left].
  now rewrite waitOnInstall_tick_stopped.
Qed.

Lemma waitOnInstall_hangs_without_health_witness :
  waitOnInstall None [UNKNOWN; SUCCESS; ERROR; DELETED] = pending.
Proof.
  apply (waitOnInstall_hangs_without_health [UNKNOWN] [ERROR; DELETED]).
  repeat constructor.
Defined.

(** ** The install-completed flag in [localStorage] *)

Lemma Z_to_int_proper (z : Z) :
  Z.to_int z <> Decimal.Pos Decimal.Nil /\ Z.to_int z <> Decimal.Neg Decimal.Nil.
Proof.
  destruct z as [|p|p]; cbn; split; try discriminate;
    intros [= E]; now apply (DecimalPos.Unsigned.to_uint_nonnil p).
Qed.

Lemma number_to_string_inj (a b : Z) :
  number_to_string a = number_to_string b -> a = b.
Proof.
  unfold number_to_string. intros E.
  apply DecimalZ.to_int_inj.
  destruct (Z_to_int_proper a) as (Ha1 & Ha2).
  destruct (Z_to_int_proper b) as (Hb1 & Hb2).
  pose proof (NilZero.isi _ Ha1 Ha2) as Ia.
  pose proof (NilZero.isi _ Hb1 Hb2) as Ib.
  rewrite E, Ib in Ia. now injection Ia.
Qed.

Lemma append_cancel_l (p a b : string) : p ++ a = p ++ b -> a = b.
Proof.
  induction p as [|c p IH]; cbn; [trivial|].
  intros [= E]. now apply IH.
Qed.

Lemma append_cancel_r (s a b : string) : a ++ s = b ++ s -> a = b.
Proof.
  revert b. induction a as [|c a IH]; intros [|c' b] E.
  - reflexivity.
  - exfalso. apply (f_equal String.length) in E.
    cbn in E. rewrite length_append in E. lia.
  - exfalso. apply (f_equal String.length) in E.
    cbn in E. rewrite length_append in E. lia.
  - cbn in E. injection E as -> E. f_equal. now apply IH.
Qed.

Lemma getInstallCompletedStorageKey_inj (a b : DigitalOceanServer) :
  getInstallCompletedStorageKey a = getInstallCompletedStorageKey b ->
  id (dropletInfo a) = id (dropletInfo b).
Proof.
  unfold getInstallCompletedStorageKey. intros E.
  apply append_cancel_l in E. apply append_cancel_r in E.
  now apply number_to_string_inj.
Qed.

Lemma getItem_setItem_same (key value : string) (storage : Storage) :
  getItem key (setItem key value storage) = Some value.
Proof.
  unfold setItem. cbn [getItem]. now rewrite String.eqb_refl.
Qed.

Lemma getItem_setItem_other (key key' value : string) (storage : Storage) :
  key' <> key ->
  getItem key' (setItem key value storage) = getItem key' storage.
Proof.
  intros Hne. unfold setItem. cbn [getItem].
  destruct (String.eqb_spec key key') as [E|_]; [now destruct Hne|].
  induction storage as [|[k v] storage IH]; [reflexivity|].
  cbn [filter fst getItem].
  destruct (String.eqb_spec k key) as [->|Hk]; cbn [negb].
  - destruct (String.eqb_spec key key') as [E|_]; [now destruct Hne | exact IH].
  - cbn [getItem]. now rewrite IH.
Qed.

(** X13.  [isInstallCompleted] reads what [setInstallCompleted] wrote.  With
    an empty storage it is false; after [setInstallCompleted] it is
    true; and after the constructor's promise has settled it is true
    exactly when that promise was fulfilled or the flag was there
    before. *)
Theorem isInstallCompleted_after_set
    (this : DigitalOceanServer) (storage : Storage) :
  isInstallCompleted this [] = false
  /\ isInstallCompleted this (setInstallCompleted this storage) = true
  /\ forall settled : Promise,
       isInstallCompleted this (constructor_settled settled this storage) = true
       <-> settled = fulfilled \/ isInstallCompleted this storage = true.
Proof.
  assert (Hset : isInstallCompleted this (setInstallCompleted this storage) = true).
  { unfold isInstallCompleted, setInstallCompleted.
    now rewrite getItem_setItem_same. }
  split; [reflexivity | split; [exact Hset|]].
  intros [| |e]; cbn [constructor_settled].
  - split; [intros H; now right | intros [H | H]; [discriminate H | exact H]].
  - split; [intros _; now left | intros _; exact Hset].
  - split; [intros H; now right | intros [H | H]; [discriminate H | exact H]].
Qed.

(** X14.  The storage keys of servers with different droplet ids differ, as
    do the ids of their hosts, so marking one server as installed does
    not change the answer of [isInstallCompleted] for another. *)
Theorem isInstallCompleted_other_droplet
    (this other : DigitalOceanServer) (storage : Storage) :
  id (dropletInfo other) <> id (dropletInfo this) ->
  getInstallCompletedStorageKey other <> getInstallCompletedStorageKey this
  /\ DigitalOceanHost_getId (dropletInfo other)
     <> DigitalOceanHost_getId (dropletInfo this)
  /\ isInstallCompleted other (setInstallCompleted this storage)
     = isInstallCompleted other storage.
Proof.
  intros Hid.
  assert (Hkey : getInstallCompletedStorageKey other
                 <> getInstallCompletedStorageKey this).
  { intros E. apply Hid. now apply getInstallCompletedStorageKey_inj. }
  split; [exact Hkey | split].
  - intros E. apply Hid. now apply number_to_string_inj.
  - unfold isInstallCompleted, setInstallCompleted.
    now rewrite getItem_setItem_other.
Qed.

Lemma isInstallCompleted_other_droplet_witness :
  isInstallCompleted (new_DigitalOceanServer legacy_droplet)
    (setInstallCompleted (server_with SUCCESS installed_tags) [])
  = false.
Proof.
  refine (eq_trans
            (proj2 (proj2 (isInstallCompleted_other_droplet
                             (server_with SUCCESS installed_tags)
                             (new_DigitalOceanServer legacy_droplet) [] _))) _).
  - discriminate.
  - reflexivity.
Defined.

(** ** Tags and the case of letters *)

Lemma lower_char_idempotent (c : ascii) : lower_char (lower_char c) = lower_char c.
Proof. each_ascii c; reflexivity. Qed.

Lemma lower_char_colon (c : ascii) : lower_char c = ":"%char -> c = ":"%char.
Proof.
  each_ascii c; vm_compute; intros H; (reflexivity || discriminate H).
Qed.

Lemma toLowerCase_idempotent (s : string) : toLowerCase (toLowerCase s) = toLowerCase s.
Proof.
  induction s as [|c s IH]; cbn; [reflexivity|].
  now rewrite lower_char_idempotent, IH.
Qed.

Lemma toLowerCase_append (a b : string) :
  toLowerCase (a ++ b) = toLowerCase a ++ toLowerCase b.
Proof.
  induction a as [|c a IH]; cbn; [reflexivity | now rewrite IH].
Qed.

(** The loop of [getTagValue] sees a prefix only through its length
    and its lower-case form. *)
Lemma getTagValue_in_prefix_case (p p' : string) (tagList : list string) :
  toLowerCase p = toLowerCase p' ->
  getTagValue_in p tagList = getTagValue_in p' tagList.
Proof.
  intros Hlow.
  assert (Hlen : String.length p = String.length p').
  { now rewrite <- (toLowerCase_length p), Hlow, toLowerCase_length. }
  induction tagList as [|tag rest IH]; [reflexivity|].
  cbn [getTagValue_in]. unfold startsWithCaseInsensitive.
  now rewrite Hlow, Hlen, IH.
Qed.

Lemma makeKeyValueTagPrefix_lower (key : string) :
  toLowerCase (makeKeyValueTagPrefix (toLowerCase key))
  = toLowerCase (makeKeyValueTagPrefix key).
Proof.
  rewrite !makeKeyValueTagPrefix_eq.
  change ("kv:" ++ toLowerCase key ++ ":") with ("kv:" ++ (toLowerCase key ++ ":")).
  change ("kv:" ++ key ++ ":") with ("kv:" ++ (key ++ ":")).
  rewrite !toLowerCase_append.
  now rewrite toLowerCase_idempotent.
Qed.

(** X15.  DigitalOcean may hand tags back in another case than they were
    written in.  [getTagValue] does not mind: if the first tag with
    the prefix is the hex encoding of [value] behind [kv:<key>:] in any
    mix of cases, it returns [value], and it does so for the key in
    lower case as well. *)
Theorem getTagValue_ignores_case
    (key value stored : string) (d : DropletInfo) (before after : list string) :
  tags d = (before ++ (stored ++ asciiToHex value)%string :: after)%list ->
  Forall (fun tag =>
            startsWithCaseInsensitive tag (makeKeyValueTagPrefix key) = false)
         before ->
  toLowerCase stored = toLowerCase (makeKeyValueTagPrefix key) ->
  getTagValue key d = str value
  /\ getTagValue (toLowerCase key) d = str value.
Proof.
  intros Htags Hbefore Hstored.
  assert (Hlen : String.length (makeKeyValueTagPrefix key) = String.length stored).
  { now rewrite <- (toLowerCase_length stored), Hstored, toLowerCase_length. }
  assert (Hkey : getTagValue key d = str value).
  { unfold getTagValue.
    rewrite Htags, (getTagValue_in_skip _ _ _ Hbefore).
    cbn [getTagValue_in]. unfold startsWithCaseInsensitive.
    rewrite Hlen, slice_to_append, Hstored, String.eqb_refl. cbn [negb].
    now rewrite slice_from_append, hexToString_asciiToHex. }
  split; [exact Hkey|].
  unfold getTagValue in *.
  now rewrite (getTagValue_in_prefix_case _ (makeKeyValueTagPrefix key))
    by apply makeKeyValueTagPrefix_lower.
Qed.

Lemma getTagValue_ignores_case_witness :
  getTagValue "ApiUrl"
    (droplet_with_tags ["Shadowbox"; "KV:APIURL:" ++ asciiToHex "https://h/"])
  = str "https://h/".
Proof.
  apply (getTagValue_ignores_case "ApiUrl" "https://h/" "KV:APIURL:"
           _ ["Shadowbox"] []).
  - reflexivity.
  - repeat constructor.
  - reflexivity.
Defined.

Lemma other_key_differs (a b rest : string) :
  ~ In ":"%char (list_ascii_of_string a) ->
  ~ In ":"%char (list_ascii_of_string b) ->
  toLowerCase a <> toLowerCase b ->
  toLowerCase (slice_to (String.length (b ++ ":")) (a ++ ":" ++ rest))
  <> toLowerCase (b ++ ":").
Proof.
  revert b. induction a as [|c a IH]; intros [|c' b] Ha Hb Hne.
  - now destruct Hne.
  - cbn. intros [= E _]. symmetry in E. apply lower_char_colon in E.
    apply Hb. left. exact E.
  - cbn. intros [= E]. apply lower_char_colon in E.
    apply Ha. left. exact E.
  - cbn. intros [= E1 E2].
    apply (IH b).
    + intros H. apply Ha. now right.
    + intros H. apply Hb. now right.
    + intros E. apply Hne. cbn. now rewrite E1, E.
    + exact E2.
Qed.

(** X16.  Tags of different keys do not get in each other's way.  For two
    keys without a colon that differ even when case is ignored, a tag
    made for one key is never taken for the other: a lookup of the
    other key passes over it. *)
Theorem getTagValue_other_key
    (key key' value : string) (d d' : DropletInfo) :
  ~ In ":"%char (list_ascii_of_string key) ->
  ~ In ":"%char (list_ascii_of_string key') ->
  toLowerCase key <> toLowerCase key' ->
  tags d = makeKeyValueTag key value :: tags d' ->
  startsWithCaseInsensitive (makeKeyValueTag key value)
    (makeKeyValueTagPrefix key') = false
  /\ getTagValue key' d = getTagValue key' d'.
Proof.
  intros Hkey Hkey' Hne Htags.
  assert (Hskip : startsWithCaseInsensitive (makeKeyValueTag key value)
                    (makeKeyValueTagPrefix key') = false).
  { apply String.eqb_neq.
    rewrite makeKeyValueTag_split, !makeKeyValueTagPrefix_eq.
    change (("kv:" ++ key ++ ":") ++ asciiToHex value)
      with ("kv:" ++ ((key ++ ":") ++ asciiToHex value)).
    rewrite (append_assoc key).
    change ("kv:" ++ key' ++ ":") with ("kv:" ++ (key' ++ ":")).
    cbn. intros [= E].
    now apply (other_key_differs key key' (asciiToHex value)). }
  split; [exact Hskip|].
  unfold getTagValue. rewrite Htags. cbn [getTagValue_in].
  now rewrite Hskip.
Qed.

Lemma getTagValue_other_key_witness :
  getTagValue "apiprefix"
    (droplet_with_tags (makeKeyValueTag "apiport" "8081" :: installed_tags))
  = getTagValue "apiprefix" (droplet_with_tags installed_tags).
Proof.
  apply (getTagValue_other_key "apiport" "apiprefix" "8081").
  - cbn. intuition discriminate.
  - cbn. intuition discriminate.
  - discriminate.
  - reflexivity.
Defined.

(** ** The access token *)

Lemma token_char_not_white (c : ascii) : token_char c = true -> is_white c = false.
Proof.
  each_ascii c; vm_compute; intros H; (reflexivity || discriminate H).
Qed.

Lemma trimEnd_token (s : string) : all_token_chars s = true -> trimEnd s = s.
Proof.
  induction s as [|c s IH]; [reflexivity|].
  cbn [all_token_chars trimEnd]. intros H.
  apply andb_prop in H as (Hc & Hs).
  rewrite (IH Hs). destruct s; [|reflexivity].
  now rewrite (token_char_not_white c Hc).
Qed.

Lemma trim_token (s : string) : all_token_chars s = true -> trim s = s.
Proof.
  intros H. unfold trim.
  replace (trimStart s) with s; [now apply trimEnd_token|].
  destruct s as [|c s]; [reflexivity|].
  cbn [all_token_chars] in H. apply andb_prop in H as (Hc & _).
  cbn [trimStart]. now rewrite (token_char_not_white c Hc).
Qed.

Lemma all_token_chars_true (s : string) :
  all_token_chars s = true ->
  forall c, In c (list_ascii_of_string s) -> token_char c = true.
Proof.
  induction s as [|x s IH]; cbn [all_token_chars list_ascii_of_string];
    intros H c Hin; [destruct Hin|].
  apply andb_prop in H as (Hx & Hs).
  destruct Hin as [<- | Hin]; [exact Hx | now apply IH].
Qed.

(** X17.  A token that [sanitizeDigitalOceanToken] lets through is the
    input without the white space around it; it is not empty, holds
    no white space and nothing but letters, digits, underscores,
    slashes and hyphens; and sanitizing it again gives it back
    unchanged. *)
Theorem sanitizeDigitalOceanToken_accepted (input token : string) :
  sanitizeDigitalOceanToken input = returns token ->
  token = trim input
  /\ token <> ""
  /\ (forall c, In c (list_ascii_of_string token) ->
        is_white c = false
        /\ In c (list_ascii_of_string
                   "ABCDEFGHIJKLMNOPQRSTUVWXYZabcdefghijklmnopqrstuvwxyz0123456789_/-"))
  /\ sanitizeDigitalOceanToken token = returns token.
Proof.
  unfold sanitizeDigitalOceanToken at 1.
  destruct (pattern_test (trim input)) eqn:Hok; cbn [negb]; [|discriminate].
  intros [= <-].
  unfold pattern_test in Hok. apply andb_prop in Hok as (Hne & Hall).
  split; [reflexivity | split; [|split]].
  - intros E. rewrite E in Hne. discriminate Hne.
  - intros c Hin.
    pose proof (all_token_chars_true _ Hall c Hin) as Hc.
    split; [now apply token_char_not_white|].
    rewrite token_char_allowed in Hc.
    apply existsb_exists in Hc as (x & Hx & Heq).
    apply Ascii.eqb_eq in Heq. now subst x.
  - unfold sanitizeDigitalOceanToken.
    rewrite (trim_token _ Hall).
    unfold pattern_test. now rewrite Hne, Hall.
Qed.

Lemma sanitizeDigitalOceanToken_accepted_witness :
  sanitizeDigitalOceanToken "dop_v1-0123/abc_XYZ" = returns "dop_v1-0123/abc_XYZ".
Proof.
  apply (sanitizeDigitalOceanToken_accepted "  dop_v1-0123/abc_XYZ  ").
  reflexivity.
Defined.

(** ** Creating and listing servers *)

Import digitalocean_account_servers.

(** X18.  In the install command of [createServer] the refresh period of
    the image comes with the image: the script has the
    [WATCHTOWER_REFRESH_SECONDS] line exactly when it has the
    [SB_IMAGE] line, which is when a non-empty container image is
    configured, and the period is 30 seconds. *)
Theorem createServer_installCommand_watchtower
    (SCRIPT accessToken name : string) (settings : ShadowboxSettings) :
  pattern_test (trim accessToken) = true ->
  createServer_installCommand SCRIPT settings accessToken name
  = returns
      ("#!/bin/bash -eu" ++ LF
       ++ ("export DO_ACCESS_TOKEN=" ++ trim accessToken ++ LF)
       ++ match containerImageId settings with
          | Some (String _ _ as imageId) =>
              ("export SB_IMAGE=" ++ imageId ++ LF)
              ++ ("export WATCHTOWER_REFRESH_SECONDS=30" ++ LF)
          | _ => ""
          end
       ++ sentry_line (sentryApiUrl settings)
       ++ metrics_line (metricsUrl settings)
       ++ ("export SB_DEFAULT_SERVER_NAME=" ++ quote ++ name ++ quote ++ LF)
       ++ SCRIPT).
Proof.
  intros Hok.
  unfold createServer_installCommand, getInstallScript, sanitizeDigitalOceanToken.
  rewrite Hok. cbn [negb].
  destruct (containerImageId settings) as [[|c imageId]|];
    cbn [string_is_truthy String.eqb negb image_line watchtower_line
         number_is_truthy text_of number_text_of]; try reflexivity.
  change (number_is_truthy (Some 30%Z)) with true.
  change (number_to_string 30) with "30".
  cbv iota.
  do 3 f_equal.
  now rewrite !append_assoc.
Qed.

Lemma createServer_installCommand_watchtower_witness :
  createServer_installCommand "BODY"
    {| containerImageId := Some "quay.io/outline/shadowbox:daily";
       metricsUrl := None; sentryApiUrl := None; debug := false |}
    "token" "my server"
  = returns
      ("#!/bin/bash -eu" ++ LF
       ++ "export DO_ACCESS_TOKEN=token" ++ LF
       ++ "export SB_IMAGE=quay.io/outline/shadowbox:daily" ++ LF
       ++ "export WATCHTOWER_REFRESH_SECONDS=30" ++ LF
       ++ "export SB_DEFAULT_SERVER_NAME=" ++ quote ++ "my server" ++ quote ++ LF
       ++ "BODY").
Proof.
  refine (eq_trans (createServer_installCommand_watchtower "BODY" "token" "my server"
                      {| containerImageId := Some "quay.io/outline/shadowbox:daily";
                         metricsUrl := None; sentryApiUrl := None; debug := false |}
                      _) _).
  - reflexivity.
  - reflexivity.
Defined.

Lemma updateInstallState_dropletInfo (elapsed : Z) (this : DigitalOceanServer) :
  dropletInfo (updateInstallState elapsed this) = dropletInfo this.
Proof.
  unfold updateInstallState.
  destruct (negb _); [reflexivity|].
  destruct (truthy _); [reflexivity|].
  destruct (elapsed >=? TIMEOUT_MS)%Z; [reflexivity|].
  unfold setApiUrlAndCertificate.
  destruct (getCertificateFingerprint _); [|reflexivity].
  destruct (getManagementApiAddress _); reflexivity.
Qed.

Lemma DigitalOceanServer_new_dropletInfo (elapsed : Z) (d : DropletInfo) :
  dropletInfo (DigitalOceanServer_new elapsed d) = d.
Proof.
  unfold DigitalOceanServer_new, waitOnInstall_begin, refreshInstallState.
  cbn [snd]. now rewrite updateInstallState_dropletInfo.
Qed.

Lemma snoc_not_same {A : Type} (l : list A) (x : A) : l <> (l ++ [x])%list.
Proof.
  intros E. apply (f_equal (@List.length A)) in E.
  rewrite length_app in E. cbn in E. lia.
Qed.

(** X19.  How [createServer] ends.  Its promise is rejected, with
    ['Invalid DigitalOcean Token'], exactly when the trimmed access
    token fails the pattern, and then no request has gone to the API.
    It resolves to a server exactly when that server, built on the
    droplet the API answered with, has been added at the end of
    [this.servers]; in every other case [this.servers] is as before,
    and a promise resolved to [undefined] means the API answered with
    an error that went through [processError]. *)
Theorem createServer_outcomes
    (SCRIPT accessToken name publicKey : string) (settings : ShadowboxSettings)
    (servers0 : list DigitalOceanServer) (location : DigitalOceanLocation)
    (createDroplet : CreateDropletRequest -> DropletInfo + Error) (elapsed : Z) :
  let result :=
    createServer SCRIPT settings accessToken servers0 name location publicKey
      createDroplet elapsed in
  (promised result = rejects "Invalid DigitalOcean Token"
   <-> pattern_test (trim accessToken) = false)
  /\ (pattern_test (trim accessToken) = false ->
      requests result = [] /\ servers result = servers0 /\ effects result = [])
  /\ (forall server,
        promised result = resolves (Some server)
        <-> servers result = (servers0 ++ [server])%list)
  /\ (forall server,
        promised result = resolves (Some server) ->
        exists request droplet,
          requests result = [request]
          /\ createDroplet request = inl droplet
          /\ dropletInfo server = droplet
          /\ server = DigitalOceanServer_new elapsed droplet)
  /\ (promised result = resolves None ->
      servers result = servers0
      /\ exists request error,
           requests result = [request]
           /\ createDroplet request = inr error
           /\ effects result = processError error).
Proof.
  cbv zeta. unfold createServer, createServer_installCommand, getInstallScript,
    sanitizeDigitalOceanToken.
  destruct (pattern_test (trim accessToken)); cbn [negb].
  - match goal with
    | |- context [createDroplet ?r] =>
        set (request := r); destruct (createDroplet request) as [droplet|error] eqn:Hapi
    end; cbn [promised servers effects requests].
    + split; [split; discriminate|].
      split; [discriminate|].
      split; [|split; [|discriminate]].
      * intros server. split.
        -- now intros [= <-].
        -- intros E. apply app_inv_head in E. now injection E as <-.
      * intros server [= <-]. exists request, droplet.
        repeat split; [exact Hapi | apply DigitalOceanServer_new_dropletInfo].
    + split; [split; discriminate|].
      split; [discriminate|].
      split; [|split; [discriminate|]].
      * intros server. split; [discriminate|].
        intros E. now apply snoc_not_same in E.
      * intros _. split; [reflexivity|]. exists request, error.
        repeat split. exact Hapi.
  - cbn [promised servers effects requests].
    split; [split; reflexivity|].
    split; [repeat split|].
    split; [|split; discriminate].
    intros server. split; [discriminate|].
    intros E. now apply snoc_not_same in E.
Qed.

(** X20.  [listServers(true)] rebuilds the list from the answer of the API:
    there is one server for each droplet, in the order of the answer,
    and the servers held before are dropped.  After an error the
    promise resolves to [undefined] and the old list is kept.
    [listServers(false)] hands out the list in memory; it never
    changes the list and never reports an error. *)
Theorem listServers_droplets
    (servers0 : list DigitalOceanServer) (response : list DropletInfo + Error)
    (elapsed : Z) :
  let fetched := listServers servers0 true response elapsed in
  let cached := listServers (servers fetched) false response elapsed in
  match response with
  | inl droplets =>
      promised fetched = resolves (Some (servers fetched))
      /\ map dropletInfo (servers fetched) = droplets
      /\ effects fetched = []
  | inr error =>
      promised fetched = resolves None
      /\ servers fetched = servers0
      /\ effects fetched = processError error
  end
  /\ promised cached = resolves (Some (servers fetched))
  /\ servers cached = servers fetched
  /\ effects cached = [].
Proof.
  cbv zeta. unfold listServers. cbn [negb].
  destruct response as [droplets|error]; cbn [promised servers effects].
  - repeat split.
    rewrite map_map.
    induction droplets as [|d droplets IH]; [reflexivity|].
    cbn [map]. now rewrite DigitalOceanServer_new_dropletInfo, IH.
  - repeat split.
Qed.

(** ** More on locations *)

Lemma slice_to_length (n : nat) (s : string) : String.length (slice_to n s) <= n.
Proof.
  revert s. induction n as [|n IH]; intros [|c s]; cbn; try lia.
  specialize (IH s). lia.
Qed.

Lemma slice_to_short (n : nat) (s : string) :
  String.length s <= n -> slice_to n s = s.
Proof.
  revert s. induction n as [|n IH]; intros [|c s]; cbn; intros H;
    try reflexivity; try lia.
  now rewrite IH by lia.
Qed.

Lemma slice_to_toLowerCase (n : nat) (s : string) :
  slice_to n (toLowerCase s) = toLowerCase (slice_to n s).
Proof.
  revert s. induction n as [|n IH]; intros [|c s]; cbn; try reflexivity.
  now rewrite IH.
Qed.

Lemma lower_char_ascii (c : ascii) :
  (nat_of_ascii c <? 128)%nat = true ->
  (nat_of_ascii (lower_char c) <? 128)%nat = true.
Proof.
  each_ascii c; vm_compute; intros H; (reflexivity || discriminate H).
Qed.

Lemma is_ascii_toLowerCase (s : string) :
  is_ascii s = true -> is_ascii (toLowerCase s) = true.
Proof.
  induction s as [|c s IH]; [reflexivity|].
  cbn [is_ascii toLowerCase]. intros H.
  apply andb_prop in H as (Hc & Hs).
  now rewrite (lower_char_ascii c Hc), (IH Hs).
Qed.

Lemma is_ascii_slice_to (n : nat) (s : string) :
  is_ascii s = true -> is_ascii (slice_to n s) = true.
Proof.
  revert s. induction n as [|n IH]; intros [|c s]; cbn [slice_to is_ascii];
    try reflexivity.
  intros H. apply andb_prop in H as (Hc & Hs).
  now rewrite Hc, (IH s Hs).
Qed.

Lemma GetCityId_ascii (slug : string) :
  is_ascii slug = true -> is_ascii (GetCityId slug) = true.
Proof.
  intros H. unfold GetCityId.
  now apply is_ascii_toLowerCase, is_ascii_slice_to.
Qed.

(** X21.  For a slug in ASCII, as the slugs of DigitalOcean are: the
    city id is ASCII again, has at most three characters and no capital
    letters; taking the city id of a city id changes nothing; the case
    of the slug does not matter; and ASCII slugs that agree in their
    first three characters up to case have the same city id. *)
Theorem GetCityId_normal_form (slug1 : string) :
  is_ascii slug1 = true ->
  is_ascii (GetCityId slug1) = true
  /\ String.length (GetCityId slug1) <= 3
  /\ toLowerCase (GetCityId slug1) = GetCityId slug1
  /\ GetCityId (GetCityId slug1) = GetCityId slug1
  /\ GetCityId (toLowerCase slug1) = GetCityId slug1
  /\ forall slug2,
       is_ascii slug2 = true ->
       slice_to 3 (toLowerCase slug1) = slice_to 3 (toLowerCase slug2) ->
       GetCityId slug1 = GetCityId slug2.
Proof.
  intros Hascii.
  split; [now apply GetCityId_ascii|].
  unfold GetCityId.
  assert (Hlen : String.length (toLowerCase (slice_to 3 slug1)) <= 3).
  { rewrite toLowerCase_length. apply slice_to_length. }
  split; [exact Hlen | split; [|split; [|split]]].
  - apply toLowerCase_idempotent.
  - rewrite (slice_to_short 3 _ Hlen). apply toLowerCase_idempotent.
  - rewrite slice_to_toLowerCase. apply toLowerCase_idempotent.
  - intros slug2 _ Hsame. now rewrite <- !slice_to_toLowerCase.
Qed.

Lemma GetCityId_normal_form_witness :
  GetCityId "NYC3" = GetCityId "nyc1".
Proof.
  refine (proj2 (proj2 (proj2 (proj2 (proj2
            (GetCityId_normal_form "NYC3" _))))) "nyc1" _ _).
  - reflexivity.
  - reflexivity.
  - reflexivity.
Defined.

Lemma push_dataCenterId_flat (city slug : string)
    (locations : list DigitalOceanLocation) :
  In city (map regionId locations) ->
  Permutation (flat_map dataCenterIds (push_dataCenterId city slug locations))
              (slug :: flat_map dataCenterIds locations).
Proof.
  induction locations as [|entry rest IH]; intros Hin; [destruct Hin|].
  cbn [push_dataCenterId].
  destruct (String.eqb_spec (regionId entry) city) as [E|Hne];
    cbn [flat_map dataCenterIds].
  - rewrite <- app_assoc. cbn [app].
    apply Permutation_sym, Permutation_middle.
  - destruct Hin as [E|Hin]; [now destruct Hne|].
    eapply Permutation_trans;
      [apply Permutation_app_head, (IH Hin) | apply Permutation_sym, Permutation_middle].
Qed.

Lemma listLocations_fold_flat (regionInfos : list RegionInfo) :
  forall locations,
    Permutation
      (flat_map dataCenterIds (fold_left listLocations_each regionInfos locations))
      (flat_map dataCenterIds locations
       ++ map slug (filter supports_outline regionInfos)).
Proof.
  induction regionInfos as [|region rest IH]; intros locations.
  - cbn. now rewrite app_nil_r.
  - cbn [fold_left filter]. eapply Permutation_trans; [apply IH|].
    unfold listLocations_each.
    destruct (supports_outline region); [|apply Permutation_refl].
    cbn [map].
    destruct (find _ locations) as [entry|] eqn:Hfind.
    + apply find_some in Hfind as (Hentry & Hcity). apply String.eqb_eq in Hcity.
      eapply Permutation_trans.
      * apply Permutation_app_tail, push_dataCenterId_flat.
        rewrite <- Hcity. now apply in_map.
      * cbn [app]. apply Permutation_middle.
    + rewrite flat_map_app. cbn [flat_map dataCenterIds app].
      rewrite <- app_assoc. apply Permutation_refl.
Qed.

(** X22.  [listLocations] neither loses nor repeats a data center: taken
    together, the [dataCenterIds] of the locations are the slugs of
    the regions that are available and offer the machine size, each as
    often as the provider listed it.  An empty answer gives no
    location. *)
Theorem listLocations_data_centers (regionInfos : list RegionInfo) :
  Permutation (flat_map dataCenterIds (listLocations regionInfos))
              (map slug (filter supports_outline regionInfos))
  /\ List.length (flat_map dataCenterIds (listLocations regionInfos))
     = List.length (filter supports_outline regionInfos)
  /\ (filter supports_outline regionInfos = [] -> listLocations regionInfos = []).
Proof.
  assert (Hperm : Permutation (flat_map dataCenterIds (listLocations regionInfos))
                              (map slug (filter supports_outline regionInfos))).
  { exact (listLocations_fold_flat regionInfos []). }
  split; [exact Hperm | split].
  - rewrite (Permutation_length Hperm). apply length_map.
  - intros Hnone.
    destruct (grouped_fold regionInfos [] [] grouped_start) as [_ _ _ Hsome].
    cbn [app] in Hsome. fold (listLocations regionInfos) in Hsome.
    destruct (listLocations regionInfos) as [|location rest]; [reflexivity|].
    destruct (Hsome location (or_introl eq_refl)) as (region & Hr & Hcity).
    unfold in_city in Hcity. apply andb_prop in Hcity as (Hsup & _).
    assert (Hin : In region (filter supports_outline regionInfos))
      by (apply filter_In; now split).
    rewrite Hnone in Hin. destruct Hin.
Qed.

Lemma find_absent (city : string) (locations : list DigitalOceanLocation) :
  ~ In city (map regionId locations) ->
  find (fun entry => String.eqb (regionId entry) city) locations = None.
Proof.
  induction locations as [|entry rest IH]; intros Hno; [reflexivity|].
  cbn [find].
  destruct (String.eqb_spec (regionId entry) city) as [E|_].
  - exfalso. apply Hno. now left.
  - apply IH. intros H. apply Hno. now right.
Qed.

Lemma listLocations_fold_distinct (regionInfos : list RegionInfo) :
  forall locations,
    NoDup (map regionId locations
           ++ map (fun region => GetCityId (slug region))
                  (filter supports_outline regionInfos)) ->
    fold_left listLocations_each regionInfos locations
    = (locations
       ++ map (fun region => {| regionId := GetCityId (slug region);
                                dataCenterIds := [slug region] |})
              (filter supports_outline regionInfos))%list.
Proof.
  induction regionInfos as [|region rest IH]; intros locations Hnodup.
  - cbn. now rewrite app_nil_r.
  - cbn [fold_left filter] in *. unfold listLocations_each at 2.
    destruct (supports_outline region); [|now apply IH].
    cbn [map] in *.
    rewrite find_absent.
    + rewrite IH.
      * now rewrite <- app_assoc.
      * rewrite map_app, <- app_assoc. exact Hnodup.
    + intros Hin. apply NoDup_remove_2 in Hnodup.
      apply Hnodup. apply in_or_app. now left.
Qed.

(** X23.  When the regions that are available and offer the machine size
    lie in pairwise different cities, [listLocations] does hand them
    on one by one: each becomes a location of its own with its slug as
    the only data center, in the order of the provider. *)
Theorem listLocations_distinct_cities (regionInfos : list RegionInfo) :
  NoDup (map (fun region => GetCityId (slug region))
             (filter supports_outline regionInfos)) ->
  listLocations regionInfos
  = map (fun region => {| regionId := GetCityId (slug region);
                          dataCenterIds := [slug region] |})
        (filter supports_outline regionInfos).
Proof.
  intros Hnodup.
  exact (listLocations_fold_distinct regionInfos [] Hnodup).
Qed.

Lemma listLocations_distinct_cities_witness :
  listLocations
    [region "nyc1" true ["s-1vcpu-1gb"]; region "ams2" false ["s-1vcpu-1gb"];
     region "sfo2" true ["s-1vcpu-1gb"]]
  = [ {| regionId := "nyc"; dataCenterIds := ["nyc1"] |};
      {| regionId := "sfo"; dataCenterIds := ["sfo2"] |} ].
Proof.
  apply (listLocations_distinct_cities
           [region "nyc1" true ["s-1vcpu-1gb"]; region "ams2" false ["s-1vcpu-1gb"];
            region "sfo2" true ["s-1vcpu-1gb"]]).
  repeat constructor; cbn; intuition discriminate.
Defined.

Lemma filter_first {A : Type} (f : A -> bool) (l : list A) (x : A) (rest : list A) :
  filter f l = x :: rest ->
  exists before after,
    l = (before ++ x :: after)%list
    /\ Forall (fun y => f y = false) before
    /\ f x = true.
Proof.
  induction l as [|y l IH]; [discriminate|].
  cbn [filter]. destruct (f y) eqn:Hy.
  - intros [= -> _]. exists [], l. repeat split; [constructor | exact Hy].
  - intros E. destruct (IH E) as (before & after & -> & Hall & Hx).
    exists (y :: before), after. repeat split; [now constructor | exact Hx].
Qed.

(** X24.  [createServer] asks for the droplet in [location.dataCenterIds[0]].
    For a location that [listLocations] returned this is never
    [undefined]: it is the slug of the first region of the provider's
    answer that is available, offers the machine size and lies in the
    city of the location, and that slug is the region of the request
    that [createServer] sends. *)
Theorem createServer_region_of_listed_location
    (regionInfos : list RegionInfo) (location : DigitalOceanLocation) :
  In location (listLocations regionInfos) ->
  exists before region after,
    regionInfos = (before ++ region :: after)%list
    /\ Forall (fun earlier => in_city (regionId location) earlier = false) before
    /\ available region = true
    /\ In MACHINE_SIZE (sizes region)
    /\ GetCityId (slug region) = regionId location
    /\ hd_error (dataCenterIds location) = Some (slug region)
    /\ forall SCRIPT accessToken name publicKey settings servers0 createDroplet elapsed,
         pattern_test (trim accessToken) = true ->
         map request_region
             (requests (createServer SCRIPT settings accessToken servers0 name
                          location publicKey createDroplet elapsed))
         = [Some (slug region)].
Proof.
  intros Hin.
  destruct (grouped_fold regionInfos [] [] grouped_start) as [_ Hids _ Hsome].
  cbn [app] in *. fold (listLocations regionInfos) in *.
  specialize (Hids _ Hin).
  destruct (Hsome _ Hin) as (r0 & Hr0 & Hcity0).
  destruct (filter (in_city (regionId location)) regionInfos) as [|region rest]
    eqn:Hfilter.
  { assert (H : In r0 (filter (in_city (regionId location)) regionInfos))
      by (apply filter_In; now split).
    rewrite Hfilter in H. destruct H. }
  destruct (filter_first _ _ _ _ Hfilter) as (before & after & Hsplit & Hall & Hcity).
  exists before, region, after.
  unfold in_city, supports_outline in Hcity.
  apply andb_prop in Hcity as (Hsup & Hid).
  apply andb_prop in Hsup as (Hav & Hsize).
  apply String.eqb_eq in Hid.
  unfold offers_machine_size in Hsize.
  apply existsb_exists in Hsize as (sz & Hsz & Heq). apply String.eqb_eq in Heq.
  subst sz.
  assert (Hhd : hd_error (dataCenterIds location) = Some (slug region))
    by now rewrite Hids.
  repeat split; try assumption.
  intros SCRIPT accessToken name publicKey settings servers0 createDroplet elapsed Hok.
  unfold createServer, createServer_installCommand, getInstallScript,
    sanitizeDigitalOceanToken.
  rewrite Hok. cbn [negb].
  match goal with
  | |- context [createDroplet ?r] => destruct (createDroplet r)
  end; cbn [requests map request_region]; now rewrite Hhd.
Qed.

(** X25.  Every data center of a location that [listLocations] returns
    has the [regionId] of the location as its city id.  When the slugs
    of the provider are ASCII, as those of DigitalOcean are, the
    [regionId] is ASCII too, has at most three characters and no
    capital letters. *)
Theorem listLocations_regionId_shape
    (regionInfos : list RegionInfo) (location : DigitalOceanLocation) :
  In location (listLocations regionInfos) ->
  (forall dataCenter, In dataCenter (dataCenterIds location) ->
     GetCityId dataCenter = regionId location)
  /\ (Forall (fun region => is_ascii (slug region) = true) regionInfos ->
      is_ascii (regionId location) = true
      /\ String.length (regionId location) <= 3
      /\ toLowerCase (regionId location) = regionId location).
Proof.
  intros Hin.
  destruct (grouped_fold regionInfos [] [] grouped_start) as [_ Hids _ Hsome].
  cbn [app] in *. fold (listLocations regionInfos) in *.
  split.
  - intros dataCenter Hdc. rewrite (Hids _ Hin) in Hdc.
    apply in_map_iff in Hdc as (region & <- & Hr).
    apply filter_In in Hr as (_ & Hcity).
    unfold in_city in Hcity. apply andb_prop in Hcity as (_ & Hid).
    now apply String.eqb_eq in Hid.
  - intros Hascii.
    destruct (Hsome _ Hin) as (r0 & Hr0 & Hcity0).
    unfold in_city in Hcity0. apply andb_prop in Hcity0 as (_ & Hid0).
    apply String.eqb_eq in Hid0.
    pose proof (proj1 (Forall_forall _ _) Hascii r0 Hr0) as Hslug.
    cbn beta in Hslug.
    rewrite <- Hid0.
    split; [now apply GetCityId_ascii | split].
    + unfold GetCityId. rewrite toLowerCase_length. apply slice_to_length.
    + unfold GetCityId. apply toLowerCase_idempotent.
Qed.

Lemma listLocations_regionId_shape_witness :
  GetCityId "NYC3" = "nyc" /\ String.length "nyc" <= 3.
Proof.
  destruct (listLocations_regionId_shape some_regions
              {| regionId := "nyc"; dataCenterIds := ["nyc1"; "NYC3"] |}
              (or_introl eq_refl))
    as (Hcenters & Hshape).
  split.
  - apply (Hcenters "NYC3"). right. left. reflexivity.
  - apply Hshape. repeat constructor.
Defined.

Lemma createServer_region_of_listed_location_witness :
  exists region,
    In region some_regions
    /\ hd_error ["nyc1"; "NYC3"] = Some (slug region).
Proof.
  destruct (createServer_region_of_listed_location some_regions
              {| regionId := "nyc"; dataCenterIds := ["nyc1"; "NYC3"] |}
              (or_introl eq_refl))
    as (before & region & after & Hsplit & _ & _ & _ & _ & Hhd & _).
  exists region. split; [|exact Hhd].
  rewrite Hsplit. apply in_elt.
Defined.
